(** * engine.py: training, evaluation and inference loops

    A shallow embedding of [src/engine.py] (train_one_epoch, evaluate,
    prediction).  Python integers are [Z], Python floats are the binary64
    floats of [PrimFloat], Python lists are Rocq lists indexed with Python's
    rules (negative indices count from the end, anything else out of range
    raises IndexError), exceptions are an explicit error type. *)

From Stdlib Require Import ZArith List String Ascii Bool Lia Sorting.Sorted.
From Stdlib Require Floats.PrimFloat Numbers.Cyclic.Int63.Uint63.
From stdpp Require Import gmap strings list.

Local Open Scope Z_scope.

Abbreviation float := PrimFloat.float.

(** Float literals of the source and of the examples below. *)
Module FloatLit.
Import PrimFloat.
Definition f0 : float := 0%float.
Definition f10 : float := 10%float.
Definition f1 : float := 1%float.
Definition f2 : float := 2%float.
Definition half : float := 0.5%float.
Definition quarter : float := 0.25%float.
End FloatLit.

(** ** Python primitives used by the engine *)

Module Py.

(** The exceptions the modelled code can raise. *)
Inductive exn : Set :=
| ZeroDivisionError
| IndexError
| ValueError
| AssertionError.

(** Result of a pure expression that may raise. *)
Inductive result (A : Type) : Type :=
| Ok (a : A)
| Err (e : exn).
Arguments Ok {A} a.
Arguments Err {A} e.

(** [a // b] on Python ints: floor division, ZeroDivisionError on [b = 0]. *)
Definition floordiv (a b : Z) : result Z :=
  if b =? 0 then Err ZeroDivisionError else Ok (a / b).

(** [a % b] on Python ints: the sign follows the divisor. *)
Definition pymod (a b : Z) : result Z :=
  if b =? 0 then Err ZeroDivisionError else Ok (a mod b).

(** [l[i]] on a Python sequence: [-len <= i < 0] counts from the end,
    every other index outside [0, len) raises IndexError. *)
Definition getitem {A : Type} (l : list A) (i : Z) : result A :=
  let n := Z.of_nat (length l) in
  let j := if i <? 0 then i + n else i in
  if (j <? 0) || (n <=? j) then Err IndexError
  else match l !! Z.to_nat j with
       | Some x => Ok x
       | None => Err IndexError
       end.

(** [math.isfinite]. *)
Definition isfinite (x : float) : bool := PrimFloat.is_finite x.

(** [min(a, b)] and [max(a, b)] on two floats: the first argument is kept
    unless the second is strictly smaller (larger). *)
Definition min2 (a b : float) : float := if PrimFloat.ltb b a then b else a.
Definition max2 (a b : float) : float := if PrimFloat.ltb a b then b else a.

End Py.

Import Py.

(** ** train_one_epoch *)

Module Train.

Section Engine.

(** The external collaborators are abstract: [W] is everything the
    framework owns (model weights, accumulated gradients, the internals of
    the optimizer, of the loss scaler, of the EMA model and of mixup),
    [batch] a (samples, targets) pair, [output] the logits of a batch and
    [tensor] a zero-dimensional tensor such as the loss. *)
Context {W batch output tensor : Type}.

(** One dict of [optimizer.param_groups], with the keys the loop touches. *)
Record param_group : Set := {
  lr : float;
  lr_scale : float;
  weight_decay : float
}.

Definition set_lr (x : float) (g : param_group) : param_group :=
  {| lr := x; lr_scale := lr_scale g; weight_decay := weight_decay g |}.

Definition set_weight_decay (x : float) (g : param_group) : param_group :=
  {| lr := lr g; lr_scale := lr_scale g; weight_decay := x |}.

(** Values handed to the metric logger, the log writer and wandb. *)
Inductive pyval : Type :=
| PNone
| PFloat (x : float)
| PInt (z : Z)
| PTensor (t : tensor).

(** The calls the loop makes on its collaborators, in program order. *)
Inductive event : Type :=
| E_model_train
| E_zero_grad
| E_set_lr (i : nat) (x : float)
| E_set_weight_decay (i : nat) (x : float)
| E_mixup
| E_model (autocast : bool)
| E_print_loss (loss_value : float)
| E_loss_scaler (loss : tensor) (clip_grad : float) (create_graph update_grad : bool)
| E_backward (loss : tensor)
| E_optimizer_step
| E_ema_update
| E_cuda_synchronize
| E_metric (name : string) (v : pyval)
| E_log_writer (name : string) (v : pyval) (head : string)
| E_log_writer_set_step
| E_wandb_log (entries : list (string * pyval)) (commit : option bool)
| E_synchronize_between_processes.

(** What the calls do to the framework's state and what they return. *)
Record collab : Type := {
  mixup_fn : batch -> W -> batch * W;
  model : bool -> batch -> W -> output * W;
  criterion : output -> batch -> tensor;
  item : tensor -> float;
  tdiv : tensor -> Z -> tensor;
  backward : tensor -> W -> W;
  loss_scaler : tensor -> float -> bool -> bool -> W -> pyval * W;
  is_second_order : bool;
  optimizer_step : list param_group -> W -> W;
  zero_grad : W -> W;
  ema_update : W -> W;
  batch_acc : output -> batch -> tensor;
  tensor_bool : tensor -> bool
}.

(** The arguments of [train_one_epoch].  An optional collaborator is
    modelled by whether it is present; the schedule tables are optional
    sequences of floats. *)
Record args : Type := {
  max_norm : float;
  model_ema : bool;
  mixup : bool;
  log_writer : bool;
  wandb_logger : bool;
  start_steps : Z;
  lr_schedule_values : option (list float);
  wd_schedule_values : option (list float);
  num_training_steps_per_epoch : Z;
  update_freq : Z;
  use_amp : bool
}.

Record state : Type := {
  world : W;
  param_groups : list param_group;
  fetched : nat  (* batches pulled from the data loader so far *)
}.

Definition with_world (f : W -> W) (s : state) : state :=
  {| world := f (world s); param_groups := param_groups s; fetched := fetched s |}.

Definition with_groups (gs : list param_group) (s : state) : state :=
  {| world := world s; param_groups := gs; fetched := fetched s |}.

(** *** Events, state and exceptions: the monad of the loop *)

Inductive outcome (A : Type) : Type :=
| Ret (a : A) (s : state)
| Raise (e : exn) (s : state).
Arguments Ret {A} a s.
Arguments Raise {A} e s.

Definition M (A : Type) : Type := state -> list event * outcome A.

Definition ret {A : Type} (a : A) : M A := fun s => ([], Ret a s).

Definition bind {A B : Type} (m : M A) (k : A -> M B) : M B := fun s =>
  match m s with
  | (ev1, Ret a s1) => let '(ev2, r) := k a s1 in (ev1 ++ ev2, r)
  | (ev1, Raise e s1) => (ev1, Raise e s1)
  end.

Definition raise {A : Type} (e : exn) : M A := fun s => ([], Raise e s).

Definition emit (e : event) : M unit := fun s => ([e], Ret tt s).

Definition lift {A : Type} (r : result A) : M A :=
  match r with
  | Ok a => ret a
  | Err e => raise e
  end.

(** A call that changes the framework's state and returns nothing. *)
Definition call (e : event) (f : W -> W) : M unit := fun s =>
  ([e], Ret tt (with_world f s)).

(** A call that changes the framework's state and returns a value. *)
Definition call_ret {A : Type} (e : event) (f : W -> A * W) : M A := fun s =>
  let '(a, w) := f (world s) in ([e], Ret a (with_world (fun _ => w) s)).

Definition get_groups : M (list param_group) := fun s => ([], Ret (param_groups s) s).

Definition final_state {A : Type} (r : list event * outcome A) : state :=
  match snd r with
  | Ret _ s => s
  | Raise _ s => s
  end.

Definition raised {A : Type} (r : list event * outcome A) : option exn :=
  match snd r with
  | Ret _ _ => None
  | Raise e _ => Some e
  end.

Notation "'let*' x ':=' m 'in' k" := (bind m (fun x => k))
  (at level 10, x pattern, m at level 100, k at level 200).

Variable C : collab.

(** *** Scheduling (lines 48-55) *)

(** The condition of line 50.  Python's [and] binds tighter than [or]:
    [lr is not None or (wd is not None and data_iter_step % update_freq == 0)].
    [%] cannot raise here, [//] on line 45 already did when
    [update_freq] is 0. *)
Definition refresh_gate (a : args) (data_iter_step : Z) : bool :=
  bool_decide (lr_schedule_values a <> None)
  || (bool_decide (wd_schedule_values a <> None)
      && (data_iter_step mod update_freq a =? 0)).

(** Lines 52-55 on the dict [g] at position [i]: the writes made, the dict
    as mutated, and the exception when a table lookup raised. *)
Definition refresh_group (a : args) (it : Z) (i : nat) (g : param_group)
  : list event * param_group * option exn :=
  let '(ev1, g1, e1) :=
    match lr_schedule_values a with
    | Some tbl =>
        match getitem tbl it with
        | Ok v =>
            let x := PrimFloat.mul v (lr_scale g) in
            ([E_set_lr i x], set_lr x g, None)
        | Err e => ([], g, Some e)
        end
    | None => ([], g, None)
    end in
  match e1 with
  | Some e => (ev1, g1, Some e)
  | None =>
      match wd_schedule_values a with
      | Some tbl =>
          if PrimFloat.ltb FloatLit.f0 (weight_decay g1) then
            match getitem tbl it with
            | Ok v => (ev1 ++ [E_set_weight_decay i v], set_weight_decay v g1, None)
            | Err e => (ev1, g1, Some e)
            end
          else (ev1, g1, None)
      | None => (ev1, g1, None)
      end
  end.

(** The loop of line 51 over [enumerate(optimizer.param_groups)]; it stops
    at the first dict whose refresh raises, the earlier ones stay written. *)
Fixpoint refresh_groups (a : args) (it : Z) (i : nat) (gs : list param_group)
  : list event * list param_group * option exn :=
  match gs with
  | [] => ([], [], None)
  | g :: rest =>
      match refresh_group a it i g with
      | (ev, g', Some e) => (ev, g' :: rest, Some e)
      | (ev, g', None) =>
          let '(ev', rest', e) := refresh_groups a it (S i) rest in
          (ev ++ ev', g' :: rest', e)
      end
  end.

Definition schedule (a : args) (it : Z) (data_iter_step : Z) : M unit :=
  if refresh_gate a data_iter_step then
    fun s =>
      let '(ev, gs, e) := refresh_groups a it 0 (param_groups s) in
      match e with
      | None => (ev, Ret tt (with_groups gs s))
      | Some e => (ev, Raise e (with_groups gs s))
      end
  else ret tt.

(** *** Forward pass and finiteness check (lines 60-75) *)

Definition forward (a : args) (b : batch) : M (batch * output * tensor) :=
  let* b' := (if mixup a then call_ret E_mixup (mixup_fn C b) else ret b) in
  let* out := call_ret (E_model (use_amp a)) (model C (use_amp a) b') in
  ret (b', out, criterion C out b').

Definition check_finite (loss_value : float) : M unit :=
  if negb (isfinite loss_value) then
    let* _ := emit (E_print_loss loss_value) in
    raise AssertionError
  else ret tt.

(** *** Accumulation and optimizer step (lines 77-95) *)

(** [(data_iter_step + 1) % update_freq == 0]. *)
Definition boundary (a : args) (data_iter_step : Z) : bool :=
  (data_iter_step + 1) mod update_freq a =? 0.

Definition after_step (a : args) : M unit :=
  let* _ := call E_zero_grad (zero_grad C) in
  if model_ema a then call E_ema_update (ema_update C) else ret tt.

(** Returns [grad_norm], bound only under mixed precision. *)
Definition accumulate (a : args) (data_iter_step : Z) (loss : tensor) : M (option pyval) :=
  if use_amp a then
    let loss := tdiv C loss (update_freq a) in
    let update_grad := boundary a data_iter_step in
    let* grad_norm :=
      call_ret (E_loss_scaler loss (max_norm a) (is_second_order C) update_grad)
               (loss_scaler C loss (max_norm a) (is_second_order C) update_grad) in
    let* _ := (if boundary a data_iter_step then after_step a else ret tt) in
    ret (Some grad_norm)
  else
    let loss := tdiv C loss (update_freq a) in
    let* _ := call (E_backward loss) (backward C loss) in
    let* _ := (if boundary a data_iter_step then
                 let* gs := get_groups in
                 let* _ := call E_optimizer_step (optimizer_step C gs) in
                 after_step a
               else ret tt) in
    ret None.

(** *** Recording (lines 97-141) *)

(** The loops of lines 105-109 and 113-116 over [optimizer.param_groups]. *)
Definition lr_bounds (gs : list param_group) : float * float :=
  fold_left (fun '(min_lr, max_lr) g => (min2 min_lr (lr g), max2 max_lr (lr g)))
            gs (FloatLit.f10, FloatLit.f0).

Definition weight_decay_value (gs : list param_group) : pyval :=
  fold_left (fun v g => if PrimFloat.ltb FloatLit.f0 (weight_decay g)
                        then PFloat (weight_decay g) else v)
            gs PNone.

Definition emit_all (evs : list event) : M unit := fun s => (evs, Ret tt s).

Definition truthy (v : pyval) : bool :=
  match v with
  | PNone => false
  | PFloat x => negb (PrimFloat.eqb x FloatLit.f0)
  | PInt z => negb (z =? 0)
  | PTensor t => tensor_bool C t
  end.

Definition record (a : args) (it : Z) (b : batch) (out : output)
           (loss_value : float) (grad_norm : option pyval) : M unit :=
  let* _ := emit E_cuda_synchronize in
  let class_acc := if mixup a then PNone else PTensor (batch_acc C out b) in
  let* gs := get_groups in
  let '(min_lr, max_lr) := lr_bounds gs in
  let wd := weight_decay_value gs in
  let gn := match grad_norm with Some v => v | None => PNone end in
  let* _ := emit_all
    ([ E_metric "loss" (PFloat loss_value);
       E_metric "class_acc" class_acc;
       E_metric "lr" (PFloat max_lr);
       E_metric "min_lr" (PFloat min_lr);
       E_metric "weight_decay" wd ]
     ++ (if use_amp a then [E_metric "grad_norm" gn] else [])) in
  let* _ :=
    (if log_writer a then
       emit_all
         ([ E_log_writer "loss" (PFloat loss_value) "loss";
            E_log_writer "class_acc" class_acc "loss";
            E_log_writer "lr" (PFloat max_lr) "opt";
            E_log_writer "min_lr" (PFloat min_lr) "opt";
            E_log_writer "weight_decay" wd "opt" ]
          ++ (if use_amp a then [E_log_writer "grad_norm" gn "opt"] else [])
          ++ [E_log_writer_set_step])
     else ret tt) in
  if wandb_logger a then
    emit_all
      ([ E_wandb_log [ ("Rank-0 Batch Wise/train_loss", PFloat loss_value);
                       ("Rank-0 Batch Wise/train_max_lr", PFloat max_lr);
                       ("Rank-0 Batch Wise/train_min_lr", PFloat min_lr) ]
                     (Some false) ]
       ++ (if truthy class_acc
           then [E_wandb_log [("Rank-0 Batch Wise/train_class_acc", class_acc)] (Some false)]
           else [])
       ++ (if use_amp a
           then [E_wandb_log [("Rank-0 Batch Wise/train_grad_norm", gn)] (Some false)]
           else [])
       ++ [E_wandb_log [("Rank-0 Batch Wise/global_train_step", PInt it)] None])
  else ret tt.

(** *** One iteration of the loop of line 44 *)

(** Lines 45-69: the per-epoch step, the [continue] of line 47 (the
    result [None]), the schedule refresh and the forward pass. *)
Definition up_to_loss (a : args) (data_iter_step : Z) (b : batch)
  : M (option (Z * batch * output * tensor)) :=
  let* step := lift (floordiv data_iter_step (update_freq a)) in
  if num_training_steps_per_epoch a <=? step then ret None
  else
    let it := start_steps a + step in
    let* _ := schedule a it data_iter_step in
    let* (b', out, loss) := forward a b in
    ret (Some (it, b', out, loss)).

(** Lines 71-141: [loss_value] is read off the loss tensor before the
    tensor is divided in place by [update_freq]. *)
Definition from_loss (a : args) (data_iter_step : Z)
           (x : Z * batch * output * tensor) : M unit :=
  let '(it, b', out, loss) := x in
  let loss_value := item C loss in
  let* _ := check_finite loss_value in
  let* grad_norm := accumulate a data_iter_step loss in
  record a it b' out loss_value grad_norm.

(** The body of the [for] of line 44. *)
Definition micro_step (a : args) (data_iter_step : Z) (b : batch) : M unit :=
  let* x := up_to_loss a data_iter_step b in
  match x with
  | None => ret tt
  | Some x => from_loss a data_iter_step x
  end.

(** [next()] on the batch source, as driven by [enumerate(log_every(...))]. *)
Definition fetch : M unit := fun s =>
  ([], Ret tt {| world := world s; param_groups := param_groups s;
                 fetched := S (fetched s) |}).

(** The [for] of line 44 on the batches the loader still has to yield,
    [data_iter_step] being the index of the first of them. *)
Fixpoint train_loop (a : args) (data_iter_step : Z) (data_loader : list batch) : M unit :=
  match data_loader with
  | [] => ret tt
  | b :: rest =>
      let* _ := fetch in
      let* _ := micro_step a data_iter_step b in
      train_loop a (data_iter_step + 1) rest
  end.

Definition train_one_epoch (a : args) (data_loader : list batch) : M unit :=
  let* _ := emit E_model_train in
  let* _ := call E_zero_grad (zero_grad C) in
  let* _ := train_loop a 0 data_loader in
  emit E_synchronize_between_processes.

(** *** Observations on the calls of a run *)

(** An optimizer step: [optimizer.step()], or the loss scaler asked to
    update the gradients. *)
Definition is_opt_step (e : event) : bool :=
  match e with
  | E_optimizer_step => true
  | E_loss_scaler _ _ _ update_grad => update_grad
  | _ => false
  end.

Definition opt_steps (evs : list event) : nat :=
  length (List.filter is_opt_step evs).

(** Any call of the accumulation stage: backward pass, loss scaler,
    optimizer step, gradient reset, EMA update. *)
Definition is_optim_call (e : event) : bool :=
  match e with
  | E_backward _ | E_loss_scaler _ _ _ _ | E_optimizer_step
  | E_zero_grad | E_ema_update => true
  | _ => false
  end.

(** A write to a parameter group by the schedule refresh. *)
Definition is_refresh (e : event) : bool :=
  match e with
  | E_set_lr _ _ | E_set_weight_decay _ _ => true
  | _ => false
  end.

(** A call that reports to the metric logger, the log writer or wandb. *)
Definition is_report (e : event) : bool :=
  match e with
  | E_metric _ _ | E_log_writer _ _ _ | E_log_writer_set_step
  | E_wandb_log _ _ => true
  | _ => false
  end.

Definition add_fetched (n : nat) (s : state) : state :=
  {| world := world s; param_groups := param_groups s;
     fetched := (n + fetched s)%nat |}.

(** Every call made by [m] satisfies [P]. *)
Definition calls_only {A : Type} (P : event -> bool) (m : M A) : Prop :=
  forall s, Forall (fun e => P e = true) (fst (m s)).

(** [m] pulls nothing from the data loader. *)
Definition keeps_fetched {A : Type} (m : M A) : Prop :=
  forall s, fetched (final_state (m s)) = fetched s.

(** [m] raises nothing. *)
Definition never_raises {A : Type} (m : M A) : Prop :=
  forall s, raised (m s) = None.

(** The calls of the forward pass. *)
Definition is_forward (e : event) : bool :=
  match e with
  | E_mixup | E_model _ => true
  | _ => false
  end.

(** The calls of lines 77-95 at micro-step [data_iter_step] on the loss
    tensor [loss], written out. *)
Definition accumulate_calls (a : args) (data_iter_step : Z) (loss : tensor)
  : list event :=
  let scaled := tdiv C loss (update_freq a) in
  let closing :=
    E_zero_grad :: (if model_ema a then [E_ema_update] else []) in
  if use_amp a then
    E_loss_scaler scaled (max_norm a) (is_second_order C) (boundary a data_iter_step)
    :: (if boundary a data_iter_step then closing else [])
  else
    E_backward scaled
    :: (if boundary a data_iter_step then E_optimizer_step :: closing else []).

(** The number of accumulation groups completed within the first [n]
    micro-steps of an epoch: only the first
    [num_training_steps_per_epoch * update_freq] micro-steps are processed. *)
Definition steps_done (a : args) (n : Z) : Z :=
  Z.min n (num_training_steps_per_epoch a * update_freq a) / update_freq a.

(** How many calls of a run satisfy [P]. *)
Definition count_calls (P : event -> bool) (evs : list event) : nat :=
  length (List.filter P evs).

(** A gradient computation: the backward pass, or the loss scaler, which
    runs it under mixed precision. *)
Definition is_grad_call (e : event) : bool :=
  match e with
  | E_backward _ | E_loss_scaler _ _ _ _ => true
  | _ => false
  end.

Definition is_zero_grad (e : event) : bool :=
  match e with E_zero_grad => true | _ => false end.

Definition is_ema_update (e : event) : bool :=
  match e with E_ema_update => true | _ => false end.

Definition is_synchronize (e : event) : bool :=
  match e with E_synchronize_between_processes => true | _ => false end.

(** The wandb entry of the batch accuracy. *)
Definition is_wandb_class_acc (e : event) : bool :=
  match e with
  | E_wandb_log [(name, _)] _ => String.eqb name "Rank-0 Batch Wise/train_class_acc"
  | _ => false
  end.

(** [R] relates the state before [m] to the state after it, whether [m]
    returns or raises. *)
Definition keeps {A : Type} (R : state -> state -> Prop) (m : M A) : Prop :=
  forall s, R s (final_state (m s)).

(** What no refresh changes in a parameter group: its [lr_scale], and its
    weight decay when that is not positive. *)
Definition group_frame (g g' : param_group) : Prop :=
  lr_scale g' = lr_scale g
  /\ (PrimFloat.ltb FloatLit.f0 (weight_decay g) = false ->
      weight_decay g' = weight_decay g).

Definition groups_frame (s s' : state) : Prop :=
  Forall2 group_frame (param_groups s) (param_groups s').

Definition same_groups (s s' : state) : Prop :=
  param_groups s' = param_groups s.

(** The number of micro-steps processed among the first [n] of an epoch. *)
Definition processed (a : args) (n : Z) : Z :=
  Z.max 0 (Z.min n (num_training_steps_per_epoch a * update_freq a)).

(** What a refresh that finds its entries at [it] writes to a group [g],
    giving [g']. *)
Definition refreshed (a : args) (it : Z) (g g' : param_group) : Prop :=
  lr_scale g' = lr_scale g
  /\ (forall tbl v, lr_schedule_values a = Some tbl -> tbl !! Z.to_nat it = Some v ->
                    lr g' = PrimFloat.mul v (lr_scale g))
  /\ (lr_schedule_values a = None -> lr g' = lr g)
  /\ (forall tbl w, wd_schedule_values a = Some tbl -> tbl !! Z.to_nat it = Some w ->
                    PrimFloat.ltb FloatLit.f0 (weight_decay g) = true ->
                    weight_decay g' = w)
  /\ (wd_schedule_values a = None -> weight_decay g' = weight_decay g)
  /\ (PrimFloat.ltb FloatLit.f0 (weight_decay g) = false ->
      weight_decay g' = weight_decay g).


(** Every call made by [m] satisfies the proposition [P]. *)
Definition calls_all {A : Type} (P : event -> Prop) (m : M A) : Prop :=
  forall s, Forall P (fst (m s)).

End Engine.

Arguments Ret {W A} a s.
Arguments Raise {W A} e s.

End Train.

(** ** evaluate *)

Module Evaluate.

Section Engine.

(** [imgs] is the image tensor of a batch, [row] one row of logits,
    [box] a bounding box. *)
Context {imgs row box : Type}.

(** A batch as the loader yields it: [batch[0]], [batch[1]], [batch[2]]
    and [batch[-1]]. *)
Record batch : Type := {
  images : imgs;
  path : list string;
  bbox : list box;
  target : list Z
}.

Record collab : Type := {
  model : imgs -> list row;                       (* one row per sample *)
  criterion : list row -> list Z -> float;        (* loss.item() *)
  accuracy : list row -> list Z -> float * float; (* top-1 and top-5, .item() *)
  argmax : row -> Z;                              (* torch.max(output, dim=1)[1] *)
  batch_size : imgs -> Z                          (* images.shape[0] *)
}.

(** Modelled from the spec: [utils.MetricLogger] is not among the sources.
    Its [meters] map a metric name to a running statistic that exists from
    the first update on; a statistic is kept here as the weighted samples
    it received, which is what its count, sum and global average are
    computed from. *)
Definition meter_update (name : string) (value : float) (n : Z)
           (meters : gmap string (list (float * Z))) : gmap string (list (float * Z)) :=
  <[name := default [] (meters !! name) ++ [(value, n)]]> meters.

(** One annotated image written by lines 200-214. *)
Record artifact : Type := {
  art_dir : string;     (* "neg" or "pos", by predicted class *)
  art_target : Z;
  art_predict : Z;
  art_source : string;
  art_match : bool      (* thick red box when the prediction is right *)
}.

Record state : Type := {
  meters : gmap string (list (float * Z));
  written : list artifact;
  cnt : Z
}.

Variable C : collab.

(** [torch.masked_select] along the batch dimension. *)
Fixpoint masked_select {A : Type} (xs : list A) (mask : list bool) : list A :=
  match xs, mask with
  | x :: xs', m :: mask' =>
      if m then x :: masked_select xs' mask' else masked_select xs' mask'
  | _, _ => []
  end.

(** Lines 200-214, the loop over [zip(target, predict, path, bbox)]. *)
Fixpoint annotate (ts ps : list Z) (pths : list string) (boxes : list box)
  : list artifact :=
  match ts, ps, pths, boxes with
  | t :: ts', p :: ps', pth :: pths', _ :: boxes' =>
      {| art_dir := if p =? 0 then "neg" else "pos";
         art_target := t; art_predict := p; art_source := pth;
         art_match := p =? t |}
      :: annotate ts' ps' pths' boxes'
  | _, _, _, _ => []
  end.

(** Lines 218-227: the body of the loop over [class_to_idx.items()]. *)
Definition class_update (output : list row) (tgt : list Z)
           (m : gmap string (list (float * Z))) (c : string * Z)
  : gmap string (list (float * Z)) :=
  let '(class_name, class_id) := c in
  let mask := map (fun t => t =? class_id) tgt in
  let target_class := masked_select tgt mask in
  let data_size := Z.of_nat (length target_class) in
  if 0 <? data_size then
    let output_class := masked_select output mask in
    let '(acc1_class, acc5_class) := accuracy C output_class target_class in
    meter_update ("acc5_" ++ class_name) acc5_class data_size
      (meter_update ("acc1_" ++ class_name) acc1_class data_size m)
  else m.

(** The body of the loop of line 169. *)
Definition eval_batch (class_to_idx : list (string * Z)) (s : state) (b : batch) : state :=
  let output := model C (images b) in
  let loss := criterion C output (target b) in
  let '(acc1, acc5) := accuracy C output (target b) in
  let n := batch_size C (images b) in
  let m := meter_update "acc5" acc5 n
             (meter_update "acc1" acc1 n
                (meter_update "loss" loss 1 (meters s))) in
  let predict := map (argmax C) output in
  let arts := annotate (target b) predict (path b) (bbox b) in
  {| meters := fold_left (class_update output (target b)) class_to_idx m;
     written := written s ++ arts;
     cnt := cnt s + Z.of_nat (length arts) |}.

(** [evaluate]: the meters after the last batch; the function returns one
    global average per key of this map. *)
Definition evaluate (class_to_idx : list (string * Z)) (data_loader : list batch) : state :=
  fold_left (eval_batch class_to_idx) data_loader
            {| meters := ∅; written := []; cnt := 0 |}.

(** The annotated images of one batch: lines 199-214 on the batch alone. *)
Definition batch_artifacts (b : batch) : list artifact :=
  annotate (target b) (map (argmax C) (model C (images b))) (path b) (bbox b).

(** The weighted samples a run gives the meters of the loss and of the
    overall top-1 and top-5 accuracy, one per batch. *)
Definition loss_samples (bs : list batch) : list (float * Z) :=
  map (fun b => (criterion C (model C (images b)) (target b), 1)) bs.
Definition acc1_samples (bs : list batch) : list (float * Z) :=
  map (fun b => (fst (accuracy C (model C (images b)) (target b)),
                 batch_size C (images b))) bs.
Definition acc5_samples (bs : list batch) : list (float * Z) :=
  map (fun b => (snd (accuracy C (model C (images b)) (target b)),
                 batch_size C (images b))) bs.

(** Whether a batch has a sample of the class, the rows and labels the
    per-class loop selects for it, and the samples a run gives the two
    meters of the class, one per batch that has the class. *)
Definition has_class (class_id : Z) (b : batch) : bool :=
  existsb (fun t => t =? class_id) (target b).

Definition class_rows (class_id : Z) (b : batch) : list row :=
  masked_select (model C (images b)) (map (fun t => t =? class_id) (target b)).

Definition class_labels (class_id : Z) (b : batch) : list Z :=
  masked_select (target b) (map (fun t => t =? class_id) (target b)).

Definition class_acc1_samples (class_id : Z) (bs : list batch) : list (float * Z) :=
  flat_map (fun b =>
              if has_class class_id b
              then [(fst (accuracy C (class_rows class_id b) (class_labels class_id b)),
                     Z.of_nat (length (class_labels class_id b)))]
              else []) bs.

Definition class_acc5_samples (class_id : Z) (bs : list batch) : list (float * Z) :=
  flat_map (fun b =>
              if has_class class_id b
              then [(snd (accuracy C (class_rows class_id b) (class_labels class_id b)),
                     Z.of_nat (length (class_labels class_id b)))]
              else []) bs.

End Engine.

End Evaluate.

(** ** prediction *)

Module Prediction.

(** [s.split(sep)] for a one-character separator: always at least one
    piece, empty pieces are kept. *)
Fixpoint split (sep : ascii) (s : string) : list string :=
  match s with
  | EmptyString => [EmptyString]
  | String c rest =>
      if Ascii.eqb c sep then EmptyString :: split sep rest
      else match split sep rest with
           | seg :: segs => String c seg :: segs
           | [] => [String c EmptyString]
           end
  end.

(** [s[i]] on a string. *)
Definition char_at (s : string) (i : Z) : result ascii :=
  getitem (list_ascii_of_string s) i.

(** [int(c)] on a one-character string: a decimal digit or ValueError.
    Characters are the 256 code points of [ascii], none of which is a
    decimal digit outside ["0"] .. ["9"]. *)
Definition int_of_char (c : ascii) : result Z :=
  let n := Z.of_N (N_of_ascii c) in
  if (48 <=? n) && (n <=? 57) then Ok (n - 48) else Err ValueError.

(** Lines 273-274, on [str(data[1])]. *)
Definition parse_target (name : string) : result Z :=
  match getitem (split "_" name) 0 with
  | Err e => Err e
  | Ok first =>
      match char_at first 0 with
      | Err e => Err e
      | Ok c0 =>
          if Ascii.eqb c0 "t" then
            match char_at first 1 with
            | Err e => Err e
            | Ok c1 => int_of_char c1
            end
          else Ok (-1)
      end
  end.

(** One tuple of [result]: [x[0]], [x[1]], [x[2]] and [x[-1]]. *)
Record record : Set := {
  pred : Z;
  conf : float;
  target : Z;
  path : string * string   (* data[0] / data[1] *)
}.

(** An entry of [data_list]: image root and file name. *)
Definition datum : Set := string * string.

Section Inference.

(** Crop, resize, normalise, run the model, take arg-max and max. *)
Variable predict : datum -> Z * float.

(** The loop of lines 263-285; the first file name that does not parse
    ends the run with its exception. *)
Fixpoint infer (data_list : list datum) : result (list record) :=
  match data_list with
  | [] => Ok []
  | d :: rest =>
      match parse_target (snd d) with
      | Err e => Err e
      | Ok t =>
          let '(p, c) := predict d in
          match infer rest with
          | Err e => Err e
          | Ok rs => Ok ({| pred := p; conf := c; target := t; path := d |} :: rs)
          end
      end
  end.

(** The record the loop makes of a datum whose file name has a label. *)
Definition record_of (d : datum) (r : record) : Prop :=
  path r = d /\ pred r = fst (predict d) /\ conf r = snd (predict d)
  /\ parse_target (snd d) = Ok (target r).

End Inference.

(** Lines 289-290. *)
Definition positives (result : list record) : list (string * string) :=
  map path (List.filter (fun x => pred x =? 1) result).
Definition negatives (result : list record) : list (string * string) :=
  map path (List.filter (fun x => pred x =? 0) result).

(** [[x[1] for x in result if p(x)]]. *)
Definition confs (p : record -> bool) (result : list record) : list float :=
  map conf (List.filter p result).

(** [[i for i in range(len(result)) if p(result[i])]], [i] counting from
    [start]. *)
Fixpoint indices_from (start : nat) (p : record -> bool) (result : list record)
  : list nat :=
  match result with
  | [] => []
  | x :: rest =>
      if p x then start :: indices_from (S start) p rest
      else indices_from (S start) p rest
  end.

(** The conditions of lines 320-323 (and 326-329) and of lines 303-304. *)
Definition is_TN (x : record) : bool := (pred x =? target x) && (pred x =? 0).
Definition is_TP (x : record) : bool := (pred x =? target x) && (pred x =? 1).
Definition is_FN (x : record) : bool := negb (pred x =? target x) && (pred x =? 0).
Definition is_FP (x : record) : bool := negb (pred x =? target x) && (pred x =? 1).
Definition is_neg (x : record) : bool := pred x =? 0.
Definition is_pos (x : record) : bool := pred x =? 1.

(** [np.sum(np.array(result)[..., 2])]: the column of ground-truth labels
    summed as Python ints; an empty [result] gives a one-dimensional empty
    array, on which index 2 is out of bounds. *)
Definition sum_targets (result : list record) : Py.result Z :=
  match result with
  | [] => Err IndexError
  | _ => Ok (fold_right Z.add 0 (map target result))
  end.

Inductive mode : Set := ByPrediction | FourBuckets.

Inductive plot : Type :=
| Hist (series : list (list float)) (labels : list string) (bins : Z) (file : string)
| Scatter (xs : list float) (ys : list nat) (label : string).

Record report : Type := {
  branch : mode;
  conf_TN : list float;
  conf_TP : list float;
  conf_FN : list float;
  conf_FP : list float;
  itn : list nat;
  itp : list nat;
  ifn : list nat;   (* left unbound by the first branch, never read there *)
  ifp : list nat;
  plots : list plot
}.

(** Lines 348-367, common to both branches. *)
Definition common_plots (tn tp fn fp : list float) (n p f g : list nat) : list plot :=
  (if (0 <? length tn)%nat then [Scatter tn n "TN"] else [])
  ++ (if (0 <? length tp)%nat then [Scatter tp p "TP"] else [])
  ++ (if (0 <? length fn)%nat then [Scatter fn f "FN"] else [])
  ++ (if (0 <? length fp)%nat then [Scatter fp g "FT"] else [])
  ++ [Hist [tn ++ tp ++ fn ++ fp] [] 50 "hist.png"].

(** Lines 301-367, the statistical report. *)
Definition pred_eval (result : list record) : Py.result report :=
  match sum_targets result with
  | Err e => Err e
  | Ok total =>
      if total <? 0 then
        let tn := confs is_neg result in
        let tp := confs is_pos result in
        let n := indices_from 0 is_neg result in
        let p := indices_from 0 is_pos result in
        Ok {| branch := ByPrediction;
              conf_TN := tn; conf_TP := tp; conf_FN := []; conf_FP := [];
              itn := n; itp := p; ifn := []; ifp := [];
              plots := Hist [tn; tp] ["Negative"; "Positive"] 50 "hist_PN.png"
                       :: common_plots tn tp [] [] n p [] [] |}
      else
        let tn := confs is_TN result in
        let tp := confs is_TP result in
        let fn := confs is_FN result in
        let fp := confs is_FP result in
        let n := indices_from 0 is_TN result in
        let p := indices_from 0 is_TP result in
        let f := indices_from 0 is_FN result in
        let g := indices_from 0 is_FP result in
        Ok {| branch := FourBuckets;
              conf_TN := tn; conf_TP := tp; conf_FN := fn; conf_FP := fp;
              itn := n; itp := p; ifn := f; ifp := g;
              plots := Hist [tn ++ tp; fn ++ fp] ["True"; "False"] 50 "hist_tf.png"
                       :: Hist [tn; tp; fn; fp] ["TN"; "TP"; "FN"; "FP"] 30 "hist_4.png"
                       :: common_plots tn tp fn fp n p f g |}
  end.

(** *** Observations on a report *)

(** A record whose ground truth is known: its label is not the sentinel. *)
Definition known (x : record) : bool := negb (target x =? -1).

Definition known_count (result : list record) : nat :=
  length (List.filter known result).

(** A record predicted negative or positive, the two classes the buckets
    test for. *)
Definition binary (x : record) : bool := (pred x =? 0) || (pred x =? 1).

Definition bucket_total (r : report) : nat :=
  (length (conf_TN r) + length (conf_TP r) + length (conf_FN r) + length (conf_FP r))%nat.

(** In how many of the four buckets a record falls. *)
Definition buckets_of (x : record) : nat :=
  (Nat.b2n (is_TN x) + Nat.b2n (is_TP x) + Nat.b2n (is_FN x) + Nat.b2n (is_FP x))%nat.

(** The plots a report may hold when it goes by the prediction alone. *)
Definition by_prediction_plot (p : plot) : Prop :=
  match p with
  | Hist _ _ _ file => file = "hist_PN.png" \/ file = "hist.png"
  | Scatter _ _ label => label = "TN" \/ label = "TP"
  end.

End Prediction.

(** ** A small instance for the examples

    The framework state counts the optimizer steps taken, a batch is the
    loss the model will report on it. *)

Module Demo.
Import Train.

Definition demo : @collab nat float float float := {|
  mixup_fn := fun b w => (b, w);
  model := fun _ b w => (b, w);
  criterion := fun out _ => out;
  item := fun t => t;
  tdiv := fun t z => PrimFloat.div t (PrimFloat.of_uint63 (Uint63.of_Z z));
  backward := fun _ w => w;
  loss_scaler := fun _ _ _ update_grad w => (PNone, if update_grad then S w else w);
  is_second_order := false;
  optimizer_step := fun _ w => S w;
  zero_grad := fun w => w;
  ema_update := fun w => w;
  batch_acc := fun _ _ => FloatLit.f1;
  tensor_bool := fun t => negb (PrimFloat.eqb t FloatLit.f0)
|}.

(** Full precision, accumulation over two micro-steps, three steps per
    epoch, a learning-rate table of four entries and no weight-decay
    table. *)
Definition demo_args : args := {|
  max_norm := FloatLit.f0;
  model_ema := true;
  mixup := false;
  log_writer := true;
  wandb_logger := false;
  start_steps := 0;
  lr_schedule_values := Some [FloatLit.f1; FloatLit.half; FloatLit.quarter; FloatLit.f0];
  wd_schedule_values := None;
  num_training_steps_per_epoch := 3;
  update_freq := 2;
  use_amp := false
|}.

Definition demo_group : param_group :=
  {| lr := FloatLit.f0; lr_scale := FloatLit.f2; weight_decay := FloatLit.half |}.

Definition demo_state : @state nat :=
  {| world := O; param_groups := [demo_group]; fetched := O |}.

(** The same instance with the accumulation frequency, the two tables and
    the wandb logger chosen by the caller. *)
Definition demo_args_of (freq : Z) (lr_table wd_table : option (list float))
           (wandb : bool) : args := {|
  max_norm := FloatLit.f0;
  model_ema := true;
  mixup := false;
  log_writer := true;
  wandb_logger := wandb;
  start_steps := 0;
  lr_schedule_values := lr_table;
  wd_schedule_values := wd_table;
  num_training_steps_per_epoch := 3;
  update_freq := freq;
  use_amp := false
|}.

(** An evaluation instance: images are their own logits, two classes, the
    prediction is the larger logit, top-1 accuracy is the percentage of
    rows predicted as labelled and top-5 accuracy is 100 with two classes. *)
Definition argmax2 (r : list float) : Z :=
  match r with
  | x :: y :: _ => if PrimFloat.ltb x y then 1 else 0
  | _ => 0
  end.

Definition percent (k n : nat) : float :=
  PrimFloat.div
    (PrimFloat.mul (PrimFloat.of_uint63 (Uint63.of_Z 100))
                   (PrimFloat.of_uint63 (Uint63.of_Z (Z.of_nat k))))
    (PrimFloat.of_uint63 (Uint63.of_Z (Z.of_nat n))).

Definition eval_demo : @Evaluate.collab (list (list float)) (list float) := {|
  Evaluate.model := fun x => x;
  Evaluate.criterion := fun _ _ => FloatLit.half;
  Evaluate.accuracy := fun rows labels =>
    (percent (length (List.filter (fun rl => argmax2 (fst rl) =? snd rl)
                                  (combine rows labels)))
             (length labels),
     percent (length labels) (length labels));
  Evaluate.argmax := argmax2;
  Evaluate.batch_size := fun x => Z.of_nat (length x)
|}.

(** A batch of two positive samples, the second one misclassified. *)
Definition pos_batch : @Evaluate.batch (list (list float)) unit := {|
  Evaluate.images := [[FloatLit.f0; FloatLit.f1]; [FloatLit.f1; FloatLit.f0]];
  Evaluate.path := ["a.jpg"; "b.jpg"];
  Evaluate.bbox := [tt; tt];
  Evaluate.target := [1; 1]
|}.

Definition empty_eval : @Evaluate.state :=
  {| Evaluate.meters := ∅; Evaluate.written := []; Evaluate.cnt := 0 |}.

(** Inference records: (pred, conf, target). *)
Definition mk_rec (p : Z) (t : Z) : Prediction.record :=
  {| Prediction.pred := p; Prediction.conf := FloatLit.half;
     Prediction.target := t; Prediction.path := ("root", "file.jpg") |}.

End Demo.

(** * Properties *)

(** ** Python primitives *)

Section PyFacts.

Context {A : Type}.
Implicit Types (l : list A) (i : Z).

Lemma getitem_in_bounds l i :
  0 <= i < Z.of_nat (length l) ->
  exists x, l !! Z.to_nat i = Some x /\ getitem l i = Ok x.
Proof.
  intros Hi. unfold getitem.
  destruct (i <? 0) eqn:Hneg; [lia|].
  replace ((i <? 0) || (Z.of_nat (length l) <=? i)) with false by lia.
  destruct (l !! Z.to_nat i) as [x|] eqn:Hx; [eauto|].
  apply lookup_ge_None in Hx. lia.
Qed.

Lemma getitem_past_end l i :
  Z.of_nat (length l) <= i -> getitem l i = Err IndexError.
Proof.
  intros Hi. unfold getitem.
  destruct (i <? 0) eqn:Hneg; [lia|].
  replace ((i <? 0) || (Z.of_nat (length l) <=? i)) with true by lia.
  reflexivity.
Qed.

(** Python's negative indices: [-len <= i < 0] reads [l[len + i]], and
    nothing is raised. *)
Lemma getitem_from_end l i :
  - Z.of_nat (length l) <= i < 0 ->
  exists x, l !! Z.to_nat (Z.of_nat (length l) + i) = Some x /\ getitem l i = Ok x.
Proof.
  intros Hi. unfold getitem.
  destruct (i <? 0) eqn:Hneg; [|lia].
  replace ((i + Z.of_nat (length l) <? 0)
           || (Z.of_nat (length l) <=? i + Z.of_nat (length l))) with false by lia.
  rewrite (Z.add_comm i).
  destruct (l !! Z.to_nat (Z.of_nat (length l) + i)) as [x|] eqn:Hx; [eauto|].
  apply lookup_ge_None in Hx. lia.
Qed.

Lemma getitem_before_start l i :
  i < - Z.of_nat (length l) -> getitem l i = Err IndexError.
Proof.
  intros Hi. unfold getitem.
  destruct (i <? 0) eqn:Hneg; [|lia].
  replace (i + Z.of_nat (length l) <? 0) with true by lia.
  reflexivity.
Qed.

End PyFacts.

Example floordiv_5_2 : floordiv 5 2 = Ok 2.
Proof. reflexivity. Qed.

Example floordiv_by_zero : floordiv 5 0 = Err ZeroDivisionError.
Proof. reflexivity. Qed.

Example getitem_last : getitem [10; 20; 30] (-1) = Ok 30.
Proof. reflexivity. Qed.

Example getitem_past : getitem [10; 20; 30] 3 = Err IndexError.
Proof. reflexivity. Qed.

Example min2_10_half : Py.min2 FloatLit.f10 FloatLit.half = FloatLit.half.
Proof. reflexivity. Qed.

(** ** train_one_epoch *)

Module TrainFacts.

Import Train.

Section Facts.

Context {W batch output tensor : Type}.
Variable C : @collab W batch output tensor.

Local Abbreviation M := (@M W tensor).
Local Abbreviation event := (@event tensor).

(** *** The monad *)

Lemma calls_only_ret {A} (P : event -> bool) (x : A) : calls_only P (ret x : M A).
Proof. intros s. constructor. Qed.

Lemma calls_only_raise {A} (P : event -> bool) e : calls_only P (raise e : M A).
Proof. intros s. constructor. Qed.

Lemma calls_only_lift {A} (P : event -> bool) (r : result A) : calls_only P (lift r : M A).
Proof. destruct r; [apply calls_only_ret | apply calls_only_raise]. Qed.

Lemma calls_only_emit (P : event -> bool) e : P e = true -> calls_only P (emit e : M unit).
Proof. intros H s. repeat constructor. exact H. Qed.

Lemma calls_only_emit_all (P : event -> bool) evs :
  Forall (fun e => P e = true) evs -> calls_only P (emit_all evs : M unit).
Proof. intros H s. exact H. Qed.

Lemma calls_only_call (P : event -> bool) e f : P e = true -> calls_only P (call e f : M unit).
Proof. intros H s. repeat constructor. exact H. Qed.

Lemma calls_only_call_ret {A} (P : event -> bool) e (f : W -> A * W) :
  P e = true -> calls_only P (call_ret e f : M A).
Proof.
  intros H s. unfold call_ret. destruct (f (world s)). repeat constructor. exact H.
Qed.

Lemma calls_only_get_groups (P : event -> bool) : calls_only P (get_groups : M _).
Proof. intros s. constructor. Qed.

Lemma calls_only_bind {A B} (P : event -> bool) (m : M A) (k : A -> M B) :
  calls_only P m -> (forall x, calls_only P (k x)) -> calls_only P (bind m k).
Proof.
  intros Hm Hk s. unfold bind. specialize (Hm s).
  destruct (m s) as [ev1 [x s1|e s1]]; simpl in *; [|exact Hm].
  specialize (Hk x s1). destruct (k x s1) as [ev2 r]. simpl in *.
  apply Forall_app. split; assumption.
Qed.

Lemma calls_only_weaken {A} (P Q : event -> bool) (m : M A) :
  (forall e, P e = true -> Q e = true) -> calls_only P m -> calls_only Q m.
Proof. intros HPQ Hm s. eapply Forall_impl; [apply Hm | exact HPQ]. Qed.

Lemma keeps_fetched_bind {A B} (m : M A) (k : A -> M B) :
  keeps_fetched m -> (forall x, keeps_fetched (k x)) -> keeps_fetched (bind m k).
Proof.
  intros Hm Hk s. specialize (Hm s). unfold bind, final_state in *.
  destruct (m s) as [ev1 [x s1|e s1]]; simpl in *; [|exact Hm].
  specialize (Hk x s1). unfold final_state in Hk.
  destruct (k x s1) as [ev2 r]. simpl in *. congruence.
Qed.

Lemma never_raises_bind {A B} (m : M A) (k : A -> M B) :
  never_raises m -> (forall x, never_raises (k x)) -> never_raises (bind m k).
Proof.
  intros Hm Hk s. specialize (Hm s). unfold bind, raised in *.
  destruct (m s) as [ev1 [x s1|e s1]]; simpl in *; [|discriminate].
  specialize (Hk x s1). unfold raised in Hk.
  destruct (k x s1) as [ev2 r]. exact Hk.
Qed.

Lemma opt_steps_app (xs ys : list event) :
  opt_steps (xs ++ ys) = (opt_steps xs + opt_steps ys)%nat.
Proof. unfold opt_steps. rewrite List.filter_app, length_app. reflexivity. Qed.

Lemma opt_steps_none (P : event -> bool) (evs : list event) :
  (forall e, P e = true -> is_opt_step e = false) ->
  Forall (fun e => P e = true) evs -> opt_steps evs = 0%nat.
Proof.
  intros HP H. unfold opt_steps. induction H as [|e evs He _ IH]; [reflexivity|].
  simpl. rewrite (HP e He). exact IH.
Qed.

Lemma opt_step_is_optim_call (e : event) :
  is_opt_step e = true -> is_optim_call e = true.
Proof. destruct e; simpl; congruence. Qed.

(** *** Scheduling *)

Lemma refresh_group_calls a it i g :
  Forall (fun e : event => is_refresh e = true) (refresh_group a it i g).1.1.
Proof.
  unfold refresh_group.
  destruct (lr_schedule_values a) as [tbl|];
    [destruct (getitem tbl it)|];
    destruct (wd_schedule_values a) as [tbw|]; simpl;
    try destruct (PrimFloat.ltb _ _); try destruct (getitem tbw it); simpl;
    repeat constructor.
Qed.

Lemma refresh_groups_calls a it gs : forall i,
  Forall (fun e : event => is_refresh e = true) (refresh_groups a it i gs).1.1.
Proof.
  induction gs as [|g rest IH]; intros i; simpl; [constructor|].
  pose proof (refresh_group_calls a it i g) as Hg.
  destruct (refresh_group a it i g) as [[ev g'] [e|]]; simpl in *; [exact Hg|].
  specialize (IH (S i)).
  destruct (refresh_groups a it (S i) rest) as [[ev' rest'] e']; simpl in *.
  apply Forall_app. split; assumption.
Qed.

Lemma schedule_calls a it i : calls_only is_refresh (schedule a it i : M unit).
Proof.
  unfold schedule. destruct (refresh_gate a i); [|apply calls_only_ret].
  intros s. pose proof (refresh_groups_calls a it (param_groups s) 0%nat) as H.
  destruct (refresh_groups a it 0 (param_groups s)) as [[ev gs] [e|]]; exact H.
Qed.

Lemma schedule_keeps_fetched a it i : keeps_fetched (schedule a it i : M unit).
Proof.
  unfold schedule. destruct (refresh_gate a i); [|intros s; reflexivity].
  intros s. unfold final_state.
  destruct (refresh_groups a it 0 (param_groups s)) as [[ev gs] [e|]]; reflexivity.
Qed.

(** *** Forward pass *)

Lemma forward_calls a b : calls_only is_forward (forward C a b).
Proof.
  unfold forward. apply calls_only_bind.
  - destruct (mixup a); [apply calls_only_call_ret; reflexivity | apply calls_only_ret].
  - intros b'. apply calls_only_bind; [apply calls_only_call_ret; reflexivity|].
    intros out. apply calls_only_ret.
Qed.

Lemma call_ret_keeps_fetched {A} e (f : W -> A * W) : keeps_fetched (call_ret e f : M A).
Proof. intros s. unfold call_ret. destruct (f (world s)). reflexivity. Qed.

Lemma forward_keeps_fetched a b : keeps_fetched (forward C a b).
Proof.
  unfold forward. apply keeps_fetched_bind.
  - destruct (mixup a); [apply call_ret_keeps_fetched | intros s; reflexivity].
  - intros b'. apply keeps_fetched_bind; [apply call_ret_keeps_fetched|].
    intros out s. reflexivity.
Qed.

Lemma forward_loss a b (s : @state W) :
  match forward C a b s with
  | (_, Ret (b', out, loss) _) => loss = criterion C out b'
  | (_, Raise _ _) => False
  end.
Proof.
  unfold forward, bind, call_ret, ret.
  destruct (mixup a); simpl.
  - destruct (mixup_fn C b (world s)) as [b1 w1]. simpl.
    destruct (model C (use_amp a) b1 w1). reflexivity.
  - destruct (model C (use_amp a) b (world s)). reflexivity.
Qed.

(** *** Lines 45-69 *)

Lemma up_to_loss_calls a i b :
  calls_only (fun e => is_refresh e || is_forward e) (up_to_loss C a i b).
Proof.
  unfold up_to_loss. apply calls_only_bind; [apply calls_only_lift|].
  intros step. destruct (_ <=? _); [apply calls_only_ret|].
  apply calls_only_bind.
  - apply (calls_only_weaken is_refresh); [|apply schedule_calls].
    intros e ->. reflexivity.
  - intros _. apply calls_only_bind.
    + apply (calls_only_weaken is_forward); [|apply forward_calls].
      intros e ->. apply orb_true_r.
    + intros [[b' out] loss]. apply calls_only_ret.
Qed.

Lemma up_to_loss_keeps_fetched a i b : keeps_fetched (up_to_loss C a i b).
Proof.
  unfold up_to_loss. apply keeps_fetched_bind.
  - intros s. destruct (floordiv i (update_freq a)); reflexivity.
  - intros step. destruct (_ <=? _); [intros s; reflexivity|].
    apply keeps_fetched_bind; [apply schedule_keeps_fetched|].
    intros _. apply keeps_fetched_bind; [apply forward_keeps_fetched|].
    intros [[b' out] loss] s. reflexivity.
Qed.

Lemma up_to_loss_zero_freq a i b s :
  update_freq a = 0 -> up_to_loss C a i b s = ([], Raise ZeroDivisionError s).
Proof. intros H. unfold up_to_loss, bind, floordiv. rewrite H. reflexivity. Qed.

Lemma up_to_loss_skip a i b s :
  update_freq a <> 0 ->
  num_training_steps_per_epoch a <= i / update_freq a ->
  up_to_loss C a i b s = ([], Ret None s).
Proof.
  intros HF HN. unfold up_to_loss, bind, floordiv.
  destruct (update_freq a =? 0) eqn:E; [lia|]. simpl.
  destruct (_ <=? _) eqn:E'; [reflexivity | lia].
Qed.

Lemma up_to_loss_none a i b s ev s1 :
  up_to_loss C a i b s = (ev, Ret None s1) ->
  update_freq a <> 0
  /\ num_training_steps_per_epoch a <= i / update_freq a
  /\ ev = [] /\ s1 = s.
Proof.
  unfold up_to_loss, bind, floordiv.
  destruct (update_freq a =? 0) eqn:E; simpl; [discriminate|].
  destruct (_ <=? _) eqn:E'; simpl.
  - intros H. injection H as <- <-. repeat split; lia.
  - destruct (schedule a _ i s) as [ev1 [[] s2|e s2]]; [|discriminate].
    destruct (forward C a b s2) as [ev2 [[[b2 out2] loss2] s3|e s3]]; discriminate.
Qed.

Lemma up_to_loss_processed a i b s ev it b' out loss s1 :
  up_to_loss C a i b s = (ev, Ret (Some (it, b', out, loss)) s1) ->
  update_freq a <> 0
  /\ i / update_freq a < num_training_steps_per_epoch a
  /\ it = start_steps a + i / update_freq a
  /\ loss = criterion C out b'.
Proof.
  unfold up_to_loss, bind, floordiv.
  destruct (update_freq a =? 0) eqn:E; simpl; [discriminate|].
  destruct (_ <=? _) eqn:E'; simpl; [discriminate|].
  destruct (schedule a _ i s) as [ev1 [[] s2|e s2]]; [|discriminate].
  pose proof (forward_loss a b s2) as Hfw.
  destruct (forward C a b s2) as [ev2 [[[b2 out2] loss2] s3|e s3]]; simpl;
    [|discriminate].
  intros H. injection H as _ <- <- <- <- _. repeat split; [lia..|exact Hfw].
Qed.

(** *** Accumulation and optimizer step *)

Lemma accumulate_spec a i loss (s : @state W) :
  exists grad_norm s',
    accumulate C a i loss s = (accumulate_calls C a i loss, Ret grad_norm s')
    /\ fetched s' = fetched s
    /\ param_groups s' = param_groups s.
Proof.
  unfold accumulate, accumulate_calls, after_step, bind, call, call_ret, get_groups, ret.
  destruct (use_amp a); simpl.
  - destruct (loss_scaler C _ _ _ _ _) as [gn w].
    destruct (boundary a i), (model_ema a); simpl; eauto.
  - destruct (boundary a i), (model_ema a); simpl; eauto.
Qed.

Lemma accumulate_calls_optim a i loss :
  Forall (fun e : event => is_optim_call e = true) (accumulate_calls C a i loss).
Proof.
  unfold accumulate_calls.
  destruct (use_amp a), (boundary a i), (model_ema a); repeat constructor.
Qed.

(** One optimizer step on a boundary, none elsewhere. *)
Lemma accumulate_calls_opt_steps a i loss :
  opt_steps (accumulate_calls C a i loss) = if boundary a i then 1%nat else 0%nat.
Proof.
  unfold accumulate_calls, opt_steps.
  destruct (use_amp a), (boundary a i) eqn:Hb, (model_ema a); simpl;
    rewrite ?Hb; reflexivity.
Qed.

(** On a boundary the step is the last gradient-consuming call, and what
    follows it is the gradient reset and then the EMA update, if any. *)
Lemma accumulate_calls_boundary a i loss :
  boundary a i = true ->
  exists pre step_call,
    accumulate_calls C a i loss
    = pre ++ step_call :: E_zero_grad :: (if model_ema a then [E_ema_update] else [])
    /\ is_opt_step step_call = true
    /\ opt_steps pre = 0%nat
    /\ step_call = (if use_amp a
                    then E_loss_scaler (tdiv C loss (update_freq a)) (max_norm a)
                                       (is_second_order C) true
                    else E_optimizer_step).
Proof.
  intros Hb. unfold accumulate_calls. rewrite Hb.
  destruct (use_amp a).
  - exists [], (E_loss_scaler (tdiv C loss (update_freq a)) (max_norm a)
                              (is_second_order C) true).
    repeat split.
  - exists [E_backward (tdiv C loss (update_freq a))], E_optimizer_step.
    repeat split.
Qed.

(** Membership of an explicit call in an explicit list of calls, and
    case analysis on such a membership. *)
Ltac find_call := simpl; repeat first [left; reflexivity | right]; contradiction.
Ltac only_call H :=
  simpl in H;
  repeat (destruct H as [H|H]; [try discriminate H; try (injection H; congruence)|]);
  try contradiction.

(** *** Recording *)

Lemma record_spec a it b out loss_value grad_norm (s : @state W) :
  exists evs,
    record C a it b out loss_value grad_norm s = (evs, Ret tt s)
    /\ Forall (fun e => is_optim_call e = false) evs
    /\ In (E_metric "loss" (PFloat loss_value)) evs
    /\ (forall v, In (E_metric "loss" v) evs -> v = PFloat loss_value)
    /\ (log_writer a = true -> In (E_log_writer "loss" (PFloat loss_value) "loss") evs)
    /\ (forall v h, In (E_log_writer "loss" v h) evs -> v = PFloat loss_value)
    /\ (wandb_logger a = true ->
        exists more, In (E_wandb_log (("Rank-0 Batch Wise/train_loss", PFloat loss_value) :: more)
                                     (Some false)) evs)
    /\ (forall v more c,
          In (E_wandb_log (("Rank-0 Batch Wise/train_loss", v) :: more) c) evs ->
          v = PFloat loss_value).
Proof.
  unfold record, bind, emit, emit_all, get_groups, ret. cbv zeta.
  destruct (lr_bounds (param_groups s)) as [min_lr max_lr].
  destruct (use_amp a), (log_writer a), (wandb_logger a),
    (truthy C (if mixup a then PNone else PTensor (batch_acc C out b)));
    simpl; (eexists; split; [reflexivity|]).
  all: split; [repeat constructor|].
  all: split; [find_call|].
  all: split; [intros v Hv; only_call Hv|].
  all: split; [intros Hl; first [discriminate Hl | find_call]|].
  all: split; [intros v h Hv; only_call Hv|].
  all: split; [intros Hl; first [discriminate Hl | eexists; find_call]|].
  all: intros v more c Hv; only_call Hv.
Qed.

(** *** Lines 71-141 *)

Lemma from_loss_nonfinite a i it b' out loss (s : @state W) :
  isfinite (item C loss) = false ->
  from_loss C a i (it, b', out, loss) s
  = ([E_print_loss (item C loss)], Raise AssertionError s).
Proof.
  intros Hf. unfold from_loss, check_finite, bind, emit, raise.
  rewrite Hf. reflexivity.
Qed.

Lemma from_loss_finite a i it b' out loss (s : @state W) :
  isfinite (item C loss) = true ->
  exists grad_norm s',
    from_loss C a i (it, b', out, loss) s
    = (accumulate_calls C a i loss
         ++ fst (record C a it b' out (item C loss) grad_norm s'),
       Ret tt s')
    /\ fetched s' = fetched s
    /\ param_groups s' = param_groups s.
Proof.
  intros Hf.
  destruct (accumulate_spec a i loss s) as (gn & s' & Hacc & Hfe & Hpg).
  exists gn, s'. split; [|split; assumption].
  unfold from_loss, check_finite, bind, ret. rewrite Hf. simpl.
  rewrite Hacc.
  destruct (record_spec a it b' out (item C loss) gn s') as (evs & -> & _).
  reflexivity.
Qed.

(** *** One iteration *)

Lemma micro_step_skip a i b (s : @state W) :
  update_freq a <> 0 ->
  num_training_steps_per_epoch a <= i / update_freq a ->
  micro_step C a i b s = ([], Ret tt s).
Proof.
  intros HF HN. unfold micro_step, bind.
  rewrite (up_to_loss_skip a i b s HF HN). reflexivity.
Qed.

Lemma micro_step_nonfinite a i b (s : @state W) ev it b' out loss s1 :
  up_to_loss C a i b s = (ev, Ret (Some (it, b', out, loss)) s1) ->
  isfinite (item C loss) = false ->
  micro_step C a i b s
  = (ev ++ [E_print_loss (item C loss)], Raise AssertionError s1).
Proof.
  intros Hup Hf. unfold micro_step, bind. rewrite Hup.
  rewrite (from_loss_nonfinite a i it b' out loss s1 Hf). reflexivity.
Qed.

Lemma micro_step_finite a i b (s : @state W) ev it b' out loss s1 :
  up_to_loss C a i b s = (ev, Ret (Some (it, b', out, loss)) s1) ->
  isfinite (item C loss) = true ->
  exists grad_norm s',
    micro_step C a i b s
    = (ev ++ accumulate_calls C a i loss
          ++ fst (record C a it b' out (item C loss) grad_norm s'),
       Ret tt s')
    /\ fetched s' = fetched s1.
Proof.
  intros Hup Hf.
  destruct (from_loss_finite a i it b' out loss s1 Hf) as (gn & s' & Hfl & Hfe & _).
  exists gn, s'. split; [|exact Hfe].
  unfold micro_step, bind. rewrite Hup, Hfl. reflexivity.
Qed.

(** The three ways an iteration can go once [update_freq] is not zero. *)
Lemma micro_step_cases a i b (s : @state W) :
  (exists ev s1, up_to_loss C a i b s = (ev, Ret None s1)
                 /\ micro_step C a i b s = (ev ++ [], Ret tt s1))
  \/ (exists ev e s1, up_to_loss C a i b s = (ev, Raise e s1)
                      /\ micro_step C a i b s = (ev, Raise e s1))
  \/ (exists ev it b' out loss s1,
        up_to_loss C a i b s = (ev, Ret (Some (it, b', out, loss)) s1)).
Proof.
  unfold micro_step, bind.
  destruct (up_to_loss C a i b s) as [ev [[[[[it b'] out] loss]|] s1|e s1]] eqn:Hup.
  - right. right. eauto 10.
  - left. eauto.
  - right. left. eauto.
Qed.

Lemma micro_step_keeps_fetched a i b : keeps_fetched (micro_step C a i b).
Proof.
  intros s. pose proof (up_to_loss_keeps_fetched a i b s) as Hup.
  destruct (micro_step_cases a i b s)
    as [(ev & s1 & H1 & H2)|[(ev & e & s1 & H1 & H2)|(ev & it & b' & out & loss & s1 & H1)]].
  - rewrite H1 in Hup. rewrite H2. exact Hup.
  - rewrite H1 in Hup. rewrite H2. exact Hup.
  - rewrite H1 in Hup. destruct (isfinite (item C loss)) eqn:Hf.
    + destruct (micro_step_finite a i b s _ _ _ _ _ _ H1 Hf) as (gn & s' & -> & Hfe).
      unfold final_state in *. simpl in *. congruence.
    + rewrite (micro_step_nonfinite a i b s _ _ _ _ _ _ H1 Hf). exact Hup.
Qed.

(** The optimizer steps of one iteration: one when it is processed to
    the end on a boundary, none in every other case. *)
Lemma micro_step_opt_steps a i b (s : @state W) :
  update_freq a <> 0 ->
  opt_steps (fst (micro_step C a i b s))
  = if bool_decide (raised (micro_step C a i b s) = None)
       && (i / update_freq a <? num_training_steps_per_epoch a)
       && boundary a i
    then 1%nat else 0%nat.
Proof.
  intros HF.
  assert (Hpre : forall ev x, up_to_loss C a i b s = (ev, x) -> opt_steps ev = 0%nat).
  { intros ev x H. apply (opt_steps_none (fun e => is_refresh e || is_forward e)).
    - intros e. destruct e; simpl; congruence.
    - pose proof (up_to_loss_calls a i b s) as Hc. rewrite H in Hc. exact Hc. }
  destruct (micro_step_cases a i b s)
    as [(ev & s1 & H1 & H2)|[(ev & e & s1 & H1 & H2)|(ev & it & b' & out & loss & s1 & H1)]].
  - rewrite H2. simpl. rewrite app_nil_r, (Hpre _ _ H1).
    apply up_to_loss_none in H1.
    replace (i / update_freq a <? num_training_steps_per_epoch a) with false by lia.
    reflexivity.
  - rewrite H2. simpl. rewrite (Hpre _ _ H1). reflexivity.
  - destruct (up_to_loss_processed a i b s _ _ _ _ _ _ H1) as (_ & HN & _ & _).
    destruct (isfinite (item C loss)) eqn:Hf.
    + destruct (micro_step_finite a i b s _ _ _ _ _ _ H1 Hf) as (gn & s' & -> & _).
      simpl. rewrite !opt_steps_app, (Hpre _ _ H1), accumulate_calls_opt_steps.
      destruct (record_spec a it b' out (item C loss) gn s') as (evs & -> & Hev & _).
      simpl. rewrite (opt_steps_none (fun e => negb (is_optim_call e)) evs).
      * replace (i / update_freq a <? num_training_steps_per_epoch a) with true by lia.
        simpl. destruct (boundary a i); reflexivity.
      * intros e He. destruct (is_opt_step e) eqn:Ho; [|reflexivity].
        apply opt_step_is_optim_call in Ho. rewrite Ho in He. discriminate.
      * eapply Forall_impl; [exact Hev|]. intros e ->. reflexivity.
    + rewrite (micro_step_nonfinite a i b s _ _ _ _ _ _ H1 Hf). simpl.
      rewrite opt_steps_app, (Hpre _ _ H1). reflexivity.
Qed.

(** *** The loop *)

Lemma train_loop_cons a i b rest (s : @state W) :
  train_loop C a i (b :: rest) s
  = match micro_step C a i b (add_fetched 1 s) with
    | (ev, Ret _ s1) =>
        let '(ev2, r) := train_loop C a (i + 1) rest s1 in (ev ++ ev2, r)
    | (ev, Raise e s1) => (ev, Raise e s1)
    end.
Proof.
  simpl. unfold bind, fetch.
  change {| world := world s; param_groups := param_groups s;
            fetched := S (fetched s) |} with (add_fetched 1 s).
  destruct (micro_step C a i b (add_fetched 1 s)) as [ev [[] s1|e s1]];
    [destruct (train_loop C a (i + 1) rest s1)|]; reflexivity.
Qed.

Lemma train_loop_app a xs ys : forall i (s : @state W),
  train_loop C a i (xs ++ ys) s
  = match train_loop C a i xs s with
    | (ev, Ret _ s1) =>
        let '(ev2, r) := train_loop C a (i + Z.of_nat (length xs)) ys s1 in
        (ev ++ ev2, r)
    | (ev, Raise e s1) => (ev, Raise e s1)
    end.
Proof.
  induction xs as [|b rest IH]; intros i s.
  - simpl. rewrite Z.add_0_r. destruct (train_loop C a i ys s). reflexivity.
  - rewrite <- app_comm_cons, !train_loop_cons.
    destruct (micro_step C a i b (add_fetched 1 s)) as [ev [[] s1|e s1]];
      [|reflexivity].
    rewrite IH.
    replace (i + Z.of_nat (length (b :: rest))) with (i + 1 + Z.of_nat (length rest))
      by (simpl length; lia).
    destruct (train_loop C a (i + 1) rest s1) as [ev1 [[] s2|e s2]]; [|reflexivity].
    destruct (train_loop C a (i + 1 + Z.of_nat (length rest)) ys s2) as [ev2 r].
    rewrite app_assoc. reflexivity.
Qed.

(** A loop that returns has pulled every batch of the loader. *)
Lemma train_loop_fetched a bs : forall i (s : @state W) ev s',
  train_loop C a i bs s = (ev, Ret tt s') ->
  fetched s' = (length bs + fetched s)%nat.
Proof.
  induction bs as [|b rest IH]; intros i s ev s' H.
  - injection H as _ <-. reflexivity.
  - rewrite train_loop_cons in H.
    pose proof (micro_step_keeps_fetched a i b (add_fetched 1 s)) as Hk.
    destruct (micro_step C a i b (add_fetched 1 s)) as [ev1 [[] s1|e s1]];
      [|discriminate].
    destruct (train_loop C a (i + 1) rest s1) as [ev2 [[] s2|e s2]] eqn:Hl;
      [|discriminate].
    injection H as _ <-. rewrite (IH _ _ _ _ Hl).
    unfold final_state in Hk. simpl in Hk. rewrite Hk. simpl. lia.
Qed.

(** Once the declared number of steps is reached, the rest of the loader
    is drained and nothing else happens. *)
Lemma train_loop_skip a bs : forall i (s : @state W),
  0 < update_freq a ->
  num_training_steps_per_epoch a <= i / update_freq a ->
  train_loop C a i bs s = ([], Ret tt (add_fetched (length bs) s)).
Proof.
  induction bs as [|b rest IH]; intros i s HF HN.
  - destruct s. reflexivity.
  - rewrite train_loop_cons, micro_step_skip by lia.
    rewrite IH; [destruct s; simpl; unfold add_fetched; simpl; do 3 f_equal; lia | lia |].
    transitivity (i / update_freq a); [exact HN|].
    apply Z.div_le_mono; lia.
Qed.

Lemma steps_done_succ a i :
  0 < update_freq a ->
  steps_done a (i + 1) - steps_done a i
  = if (i / update_freq a <? num_training_steps_per_epoch a) && boundary a i
    then 1 else 0.
Proof.
  intros HF. unfold steps_done, boundary.
  set (F := update_freq a) in *. set (N := num_training_steps_per_epoch a).
  destruct (i / F <? N) eqn:E; simpl.
  - assert (i + 1 <= N * F) by (Z.div_mod_to_equations; nia).
    rewrite !Z.min_l by lia.
    destruct ((i + 1) mod F =? 0) eqn:E'; Z.div_mod_to_equations; nia.
  - assert (N * F <= i) by (Z.div_mod_to_equations; nia).
    rewrite !Z.min_r by lia. lia.
Qed.

Lemma steps_done_mono a i j :
  0 < update_freq a -> i <= j -> steps_done a i <= steps_done a j.
Proof. intros HF Hij. unfold steps_done. apply Z.div_le_mono; lia. Qed.

Lemma train_loop_opt_steps a bs : forall i (s : @state W),
  0 < update_freq a ->
  raised (train_loop C a i bs s) = None ->
  opt_steps (fst (train_loop C a i bs s))
  = Z.to_nat (steps_done a (i + Z.of_nat (length bs)) - steps_done a i).
Proof.
  induction bs as [|b rest IH]; intros i s HF Hr.
  - simpl. rewrite Z.add_0_r, Z.sub_diag. reflexivity.
  - rewrite train_loop_cons in Hr |- *.
    pose proof (micro_step_opt_steps a i b (add_fetched 1 s)) as Hm.
    destruct (micro_step C a i b (add_fetched 1 s)) as [ev [[] s1|e s1]];
      [|discriminate].
    specialize (IH (i + 1) s1 HF).
    destruct (train_loop C a (i + 1) rest s1) as [ev2 r]. simpl in *.
    rewrite opt_steps_app, Hm, (IH Hr) by lia.
    pose proof (steps_done_succ a i HF) as Hs.
    pose proof (steps_done_mono a (i + 1) (i + 1 + Z.of_nat (length rest)) HF
                  ltac:(lia)) as Hmono.
    replace (i + Z.of_nat (S (length rest)))
      with (i + 1 + Z.of_nat (length rest)) by lia.
    destruct ((i / update_freq a <? num_training_steps_per_epoch a) && boundary a i);
      lia.
Qed.

(** *** The schedule gate *)

Lemma refresh_gate_true_iff a i :
  refresh_gate a i = true
  <-> lr_schedule_values a <> None
      \/ (wd_schedule_values a <> None /\ i mod update_freq a = 0).
Proof.
  unfold refresh_gate.
  rewrite orb_true_iff, andb_true_iff, !bool_decide_eq_true, Z.eqb_eq. tauto.
Qed.

(** With a learning-rate table the gate is open at every micro-step. *)
Lemma refresh_gate_lr_table a i :
  lr_schedule_values a <> None -> refresh_gate a i = true.
Proof. intros H. apply refresh_gate_true_iff. left. exact H. Qed.

(** With a weight-decay table alone it opens on the first micro-step of
    each accumulation group only. *)
Lemma refresh_gate_wd_only a i :
  lr_schedule_values a = None -> wd_schedule_values a <> None ->
  refresh_gate a i = (i mod update_freq a =? 0).
Proof.
  intros Hlr Hwd. unfold refresh_gate. rewrite Hlr.
  rewrite bool_decide_eq_false_2 by auto.
  rewrite bool_decide_eq_true_2 by exact Hwd. reflexivity.
Qed.

(** *** The training loop *)

(** C2: when the loss computed at micro-step k (the batch after [pre]) is
    not finite, the loop raises AssertionError there: the calls of
    micro-step k end with the print of the loss, none of them is a backward
    pass, a loss-scaler call, an optimizer step, a gradient reset or an EMA
    update, no batch after the k-th is pulled from the loader, and nothing
    of [rest] is processed. *)
Theorem nonfinite_loss_stops_training
        a pre b rest (s : @state W) ev0 s0 ev it b' out loss s1 :
  train_loop C a 0 pre s = (ev0, Ret tt s0) ->
  up_to_loss C a (Z.of_nat (length pre)) b (add_fetched 1 s0)
    = (ev, Ret (Some (it, b', out, loss)) s1) ->
  isfinite (item C loss) = false ->
  train_loop C a 0 (pre ++ b :: rest) s
    = (ev0 ++ ev ++ [E_print_loss (item C loss)], Raise AssertionError s1)
  /\ Forall (fun e => is_optim_call e = false) (ev ++ [E_print_loss (item C loss)])
  /\ opt_steps (ev ++ [E_print_loss (item C loss)]) = 0%nat
  /\ fetched s1 = (length pre + 1 + fetched s)%nat.
Proof.
  intros Hpre Hup Hf.
  assert (Hev : Forall (fun e : event => is_optim_call e = false)
                       (ev ++ [E_print_loss (item C loss)])).
  { apply Forall_app. split; [|repeat constructor].
    pose proof (up_to_loss_calls a (Z.of_nat (length pre)) b (add_fetched 1 s0)) as Hc.
    rewrite Hup in Hc. eapply Forall_impl; [exact Hc|].
    intros e. destruct e; simpl; congruence. }
  repeat split.
  - rewrite train_loop_app, Hpre, Z.add_0_l, train_loop_cons.
    rewrite (micro_step_nonfinite _ _ _ _ _ _ _ _ _ _ Hup Hf). reflexivity.
  - exact Hev.
  - apply (opt_steps_none (fun e => negb (is_optim_call e))).
    + intros e He. destruct (is_opt_step e) eqn:Ho; [|reflexivity].
      apply opt_step_is_optim_call in Ho. rewrite Ho in He. discriminate.
    + eapply Forall_impl; [exact Hev|]. intros e ->. reflexivity.
  - pose proof (up_to_loss_keeps_fetched a (Z.of_nat (length pre)) b (add_fetched 1 s0)) as Hk.
    rewrite Hup in Hk. unfold final_state in Hk. simpl in Hk.
    rewrite Hk, (train_loop_fetched _ _ _ _ _ _ Hpre). lia.
Qed.

(** C3: with accumulation frequency F > 0, a micro-step that is processed
    to its end makes one optimizer step ([optimizer.step()], or the loss
    scaler called with [update_grad] set) when the number of micro-steps
    done, [data_iter_step + 1], is a multiple of F, and none otherwise; the
    step is directly followed by the gradient reset and then by the EMA
    update when there is an EMA model; and a loop that returns over [bs]
    has made one optimizer step per completed group of F processed
    micro-steps. *)
Theorem optimizer_step_once_every_update_freq a :
  0 < update_freq a ->
  (forall i b (s : @state W),
      raised (micro_step C a i b s) = None ->
      i / update_freq a < num_training_steps_per_epoch a ->
      opt_steps (fst (micro_step C a i b s))
        = (if (i + 1) mod update_freq a =? 0 then 1%nat else 0%nat)
      /\ ((i + 1) mod update_freq a = 0 ->
          exists pre step_call post,
            fst (micro_step C a i b s)
              = pre ++ step_call :: E_zero_grad
                    :: (if model_ema a then [E_ema_update] else []) ++ post
            /\ (if use_amp a
                then exists l, step_call
                               = E_loss_scaler l (max_norm a) (is_second_order C) true
                else step_call = E_optimizer_step)
            /\ opt_steps pre = 0%nat
            /\ opt_steps post = 0%nat))
  /\ (forall bs (s : @state W),
        raised (train_loop C a 0 bs s) = None ->
        opt_steps (fst (train_loop C a 0 bs s))
        = Z.to_nat (Z.min (Z.of_nat (length bs))
                          (num_training_steps_per_epoch a * update_freq a)
                    / update_freq a)).
Proof.
  intros HF. split.
  - intros i b s Hr HN. split.
    + rewrite micro_step_opt_steps by lia. rewrite Hr.
      rewrite bool_decide_eq_true_2 by reflexivity.
      replace (i / update_freq a <? num_training_steps_per_epoch a) with true by lia.
      reflexivity.
    + intros Hb.
      assert (Hbd : boundary a i = true) by (unfold boundary; lia).
      destruct (micro_step_cases a i b s)
        as [(ev & s1 & H1 & H2)|[(ev & e & s1 & H1 & H2)|(ev & it & b' & out & loss & s1 & H1)]].
      * apply up_to_loss_none in H1. lia.
      * rewrite H2 in Hr. discriminate.
      * destruct (isfinite (item C loss)) eqn:Hf.
        2:{ rewrite (micro_step_nonfinite a i b s _ _ _ _ _ _ H1 Hf) in Hr. discriminate. }
        destruct (micro_step_finite a i b s _ _ _ _ _ _ H1 Hf) as (gn & s' & -> & _).
        destruct (accumulate_calls_boundary a i loss Hbd)
          as (pre & step_call & -> & Hstep & Hpre & Hcall).
        destruct (record_spec a it b' out (item C loss) gn s') as (evs & -> & Hev & _).
        exists (ev ++ pre), step_call, evs. simpl. repeat split.
        -- rewrite <- !app_assoc. reflexivity.
        -- rewrite Hcall. destruct (use_amp a); eauto.
        -- rewrite opt_steps_app, Hpre.
           rewrite (opt_steps_none (fun e => is_refresh e || is_forward e) ev);
             [reflexivity | intros e; destruct e; simpl; congruence |].
           pose proof (up_to_loss_calls a i b s) as Hc. rewrite H1 in Hc. exact Hc.
        -- apply (opt_steps_none (fun e => negb (is_optim_call e))).
           ++ intros e He. destruct (is_opt_step e) eqn:Ho; [|reflexivity].
              apply opt_step_is_optim_call in Ho. rewrite Ho in He. discriminate.
           ++ eapply Forall_impl; [exact Hev|]. intros e ->. reflexivity.
  - intros bs s Hr. rewrite train_loop_opt_steps by assumption.
    unfold steps_done. rewrite Z.add_0_l.
    destruct (Z.le_gt_cases 0 (num_training_steps_per_epoch a)) as [HN|HN].
    + rewrite (Z.min_l 0) by nia. rewrite Z.div_0_l by lia. f_equal. lia.
    + rewrite (Z.min_r 0), (Z.min_r (Z.of_nat _)) by nia.
      rewrite Z.div_mul by lia. lia.
Qed.

(** C9: with F > 0, a micro-step whose per-epoch step
    [data_iter_step // update_freq] has reached
    [num_training_steps_per_epoch] makes no call at all and changes
    nothing, and from there on the loop only pulls the remaining batches,
    all of them, and returns. *)
Theorem steps_beyond_epoch_are_skipped a i b bs (s : @state W) :
  0 < update_freq a ->
  num_training_steps_per_epoch a <= i / update_freq a ->
  micro_step C a i b s = ([], Ret tt s)
  /\ train_loop C a i bs s = ([], Ret tt (add_fetched (length bs) s))
  /\ fetched (final_state (train_loop C a i bs s)) = (length bs + fetched s)%nat.
Proof.
  intros HF HN. split; [apply micro_step_skip; [lia | exact HN]|].
  rewrite (train_loop_skip a bs i s HF HN). split; reflexivity.
Qed.

(** C10: in a micro-step that reaches the loss with a finite value, the
    loss handed to the metric logger, to the log writer and to wandb is
    [criterion(output, targets).item()] as read before the division, in
    each of them under the name of the loss and with no other value, while
    the backward pass (the loss scaler under mixed precision) is the only
    consumer of the loss divided by [update_freq]. *)
Theorem recorded_loss_is_unscaled a i b (s : @state W) ev it b' out loss s1 :
  up_to_loss C a i b s = (ev, Ret (Some (it, b', out, loss)) s1) ->
  isfinite (item C loss) = true ->
  let calls := fst (micro_step C a i b s) in
  let loss_value := item C (criterion C out b') in
  raised (micro_step C a i b s) = None
  /\ In (E_metric "loss" (PFloat loss_value)) calls
  /\ (forall v, In (E_metric "loss" v) calls -> v = PFloat loss_value)
  /\ (log_writer a = true -> In (E_log_writer "loss" (PFloat loss_value) "loss") calls)
  /\ (forall v h, In (E_log_writer "loss" v h) calls -> v = PFloat loss_value)
  /\ (wandb_logger a = true ->
      exists more, In (E_wandb_log (("Rank-0 Batch Wise/train_loss", PFloat loss_value) :: more)
                                   (Some false)) calls)
  /\ (forall v more c,
        In (E_wandb_log (("Rank-0 Batch Wise/train_loss", v) :: more) c) calls ->
        v = PFloat loss_value)
  /\ In (if use_amp a
         then E_loss_scaler (tdiv C (criterion C out b') (update_freq a)) (max_norm a)
                            (is_second_order C) (boundary a i)
         else E_backward (tdiv C (criterion C out b') (update_freq a))) calls
  /\ (forall l, In (E_backward l) calls -> l = tdiv C (criterion C out b') (update_freq a))
  /\ (forall l c g u, In (E_loss_scaler l c g u) calls ->
                      l = tdiv C (criterion C out b') (update_freq a)).
Proof.
  intros Hup Hf calls loss_value. subst calls loss_value.
  destruct (up_to_loss_processed a i b s _ _ _ _ _ _ Hup) as (_ & _ & _ & <-).
  destruct (micro_step_finite a i b s _ _ _ _ _ _ Hup Hf) as (gn & s' & -> & _).
  destruct (record_spec a it b' out (item C loss) gn s')
    as (evs & -> & Hev & Hm & Hm1 & Hl & Hl1 & Hw & Hw1).
  pose proof (up_to_loss_calls a i b s) as Hc. rewrite Hup in Hc. simpl in Hc.
  pose proof (accumulate_calls_optim a i loss) as Ha.
  rewrite Forall_forall in Hc, Ha, Hev.
  assert (Hin : forall e : event,
             is_refresh e = false -> is_forward e = false ->
             In e (ev ++ accumulate_calls C a i loss ++ evs) ->
             (is_optim_call e = true /\ In e (accumulate_calls C a i loss))
             \/ (is_optim_call e = false /\ In e evs)).
  { intros e Hr Hfw He. rewrite !in_app_iff in He.
    destruct He as [He|[He|He]].
    - apply list_elem_of_In, Hc in He. rewrite Hr, Hfw in He. discriminate.
    - left. split; [apply Ha, list_elem_of_In, He | exact He].
    - right. split; [apply Hev, list_elem_of_In, He | exact He]. }
  simpl. repeat split.
  - rewrite !in_app_iff. auto.
  - intros v Hv. apply Hin in Hv as [[Hv _]|[_ Hv]]; try reflexivity;
      [discriminate | auto].
  - intros H. rewrite !in_app_iff. auto.
  - intros v h Hv. apply Hin in Hv as [[Hv _]|[_ Hv]]; try reflexivity;
      [discriminate | eauto].
  - intros H. destruct (Hw H) as [more Hmore]. exists more.
    rewrite !in_app_iff. auto.
  - intros v more c Hv. apply Hin in Hv as [[Hv _]|[_ Hv]]; try reflexivity;
      [discriminate | eauto].
  - rewrite !in_app_iff. right. left. unfold accumulate_calls.
    destruct (use_amp a); left; reflexivity.
  - intros l Hv. apply Hin in Hv as [[_ Hv]|[Hv _]]; try reflexivity;
      [|discriminate].
    unfold accumulate_calls in Hv.
    destruct (use_amp a), (boundary a i), (model_ema a); only_call Hv.
  - intros l c g u Hv. apply Hin in Hv as [[_ Hv]|[Hv _]]; try reflexivity;
      [|discriminate].
    unfold accumulate_calls in Hv.
    destruct (use_amp a), (boundary a i), (model_ema a); only_call Hv.
Qed.

(** *** The schedule tables *)

(** Steps from 0 on: a lookup at a global step inside the table returns
    the stored entry, which the refresh writes to the group multiplied by the
    group's [lr_scale] for the learning rate and as it is for the weight
    decay; a lookup at a step at or past the end of the table raises
    IndexError, and so does the refresh, leaving the group as it was. *)
Theorem schedule_lookup_exact_or_index_error (tbl : list float) (it : Z) :
  (0 <= it < Z.of_nat (length tbl) ->
   exists v,
     tbl !! Z.to_nat it = Some v
     /\ getitem tbl it = Ok v
     /\ (forall a i g,
            lr_schedule_values a = Some tbl ->
            lr (refresh_group (tensor := tensor) a it i g).1.2
            = PrimFloat.mul v (lr_scale g))
     /\ (forall a i g,
            wd_schedule_values a = Some tbl ->
            (forall t, lr_schedule_values a = Some t -> exists x, getitem t it = Ok x) ->
            PrimFloat.ltb FloatLit.f0 (weight_decay g) = true ->
            weight_decay (refresh_group (tensor := tensor) a it i g).1.2 = v
            /\ (refresh_group (tensor := tensor) a it i g).2 = None))
  /\ (Z.of_nat (length tbl) <= it ->
      getitem tbl it = Err IndexError
      /\ (forall a i g,
             lr_schedule_values a = Some tbl ->
             refresh_group (tensor := tensor) a it i g = ([], g, Some IndexError))
      /\ (forall a i g,
             wd_schedule_values a = Some tbl ->
             (forall t, lr_schedule_values a = Some t -> exists x, getitem t it = Ok x) ->
             PrimFloat.ltb FloatLit.f0 (weight_decay g) = true ->
             weight_decay (refresh_group (tensor := tensor) a it i g).1.2 = weight_decay g
             /\ (refresh_group (tensor := tensor) a it i g).2 = Some IndexError)).
Proof.
  assert (Hwd : forall a i g r,
             getitem tbl it = r ->
             wd_schedule_values a = Some tbl ->
             (forall t, lr_schedule_values a = Some t -> exists x, getitem t it = Ok x) ->
             PrimFloat.ltb FloatLit.f0 (weight_decay g) = true ->
             weight_decay (refresh_group (tensor := tensor) a it i g).1.2
             = match r with Ok v => v | Err _ => weight_decay g end
             /\ (refresh_group (tensor := tensor) a it i g).2
                = match r with Ok _ => None | Err e => Some e end).
  { intros a i g r Hg Hwd Hlr Hpos. unfold refresh_group. rewrite Hwd.
    destruct (lr_schedule_values a) as [t|].
    - destruct (Hlr t eq_refl) as [x ->]. simpl. rewrite Hpos, Hg.
      destruct r; split; reflexivity.
    - simpl. rewrite Hpos, Hg. destruct r; split; reflexivity. }
  split.
  - intros Hin. destruct (getitem_in_bounds tbl it Hin) as (v & Hv & Hg).
    exists v. split; [exact Hv|]. split; [exact Hg|]. split.
    + intros a i g Hlr. unfold refresh_group. rewrite Hlr, Hg.
      destruct (wd_schedule_values a) as [tbw|]; simpl;
        try destruct (PrimFloat.ltb _ _); try destruct (getitem tbw it); reflexivity.
    + intros a i g. apply (Hwd a i g (Ok v) Hg).
  - intros Hout. pose proof (getitem_past_end tbl it Hout) as Hg.
    split; [exact Hg|]. split.
    + intros a i g Hlr. unfold refresh_group. rewrite Hlr, Hg. reflexivity.
    + intros a i g. apply (Hwd a i g (Err IndexError) Hg).
Qed.

End Facts.

(** *** On the small instance *)

Section OnDemo.

Import Demo FloatLit.

Local Abbreviation nan := PrimFloat.nan.

(** C1, on the code: with a learning-rate table, accumulation over two
    micro-steps and micro-step 1 (not a multiple of 2), the gate of line 50
    is open and the learning rate of the group is written again; the
    refresh is not skipped between accumulation boundaries. *)
Theorem refresh_runs_between_boundaries :
  1 mod update_freq demo_args <> 0
  /\ refresh_gate demo_args 1 = true
  /\ fst (schedule (tensor := float) demo_args
                   (start_steps demo_args + 1 / update_freq demo_args) 1 demo_state)
     = [E_set_lr 0 f2]
  /\ In (E_set_lr 0 f2) (fst (micro_step demo demo_args 1 half demo_state)).
Proof.
  split; [discriminate|]. split; [reflexivity|]. split; [reflexivity|].
  left. reflexivity.
Qed.

Lemma nonfinite_loss_stops_training_witness :
  isfinite (item demo nan) = false
  /\ raised (train_loop demo demo_args 0 [half; nan; f1] demo_state)
     = Some AssertionError
  /\ fetched (final_state (train_loop demo demo_args 0 [half; nan; f1] demo_state))
     = 2%nat.
Proof.
  edestruct (nonfinite_loss_stops_training demo demo_args [half] nan [f1] demo_state)
    as (H1 & _ & _ & H4).
  - reflexivity.
  - reflexivity.
  - reflexivity.
  - split; [reflexivity|]. simpl app in H1. rewrite H1.
    split; [reflexivity | exact H4].
Defined.

Lemma optimizer_step_once_every_update_freq_witness :
  0 < update_freq demo_args
  /\ opt_steps (fst (micro_step demo demo_args 0 half demo_state)) = 0%nat
  /\ opt_steps (fst (micro_step demo demo_args 1 half demo_state)) = 1%nat
  /\ opt_steps (fst (train_loop demo demo_args 0
                                [half; half; f1; half; half; f1; half; half; f1]
                                demo_state)) = 3%nat.
Proof.
  assert (HF : 0 < update_freq demo_args) by reflexivity.
  destruct (optimizer_step_once_every_update_freq demo demo_args HF) as [Hstep Hloop].
  split; [exact HF|]. split; [|split].
  - apply (Hstep 0 half demo_state); reflexivity.
  - apply (Hstep 1 half demo_state); reflexivity.
  - rewrite Hloop; reflexivity.
Defined.

Lemma steps_beyond_epoch_are_skipped_witness :
  0 < update_freq demo_args
  /\ num_training_steps_per_epoch demo_args <= 6 / update_freq demo_args
  /\ micro_step demo demo_args 6 half demo_state = ([], Ret tt demo_state)
  /\ train_loop demo demo_args 6 [half; nan; f1] demo_state
     = ([], Ret tt (add_fetched 3 demo_state)).
Proof.
  assert (HF : 0 < update_freq demo_args) by reflexivity.
  assert (HN : num_training_steps_per_epoch demo_args <= 6 / update_freq demo_args)
    by discriminate.
  split; [exact HF|]. split; [exact HN|].
  destruct (steps_beyond_epoch_are_skipped demo demo_args 6 half [half; nan; f1]
                                           demo_state HF HN) as (H1 & H2 & _).
  split; [exact H1 | exact H2].
Defined.

Lemma recorded_loss_is_unscaled_witness :
  isfinite (item demo half) = true
  /\ In (E_metric "loss" (PFloat half)) (fst (micro_step demo demo_args 1 half demo_state))
  /\ In (E_backward quarter) (fst (micro_step demo demo_args 1 half demo_state)).
Proof.
  edestruct (recorded_loss_is_unscaled demo demo_args 1 half demo_state)
    as (_ & H2 & _ & _ & _ & _ & _ & H8 & _).
  - reflexivity.
  - reflexivity.
  - split; [reflexivity|]. split; [exact H2 | exact H8].
Defined.

Lemma schedule_lookup_exact_or_index_error_witness :
  0 <= 1 < Z.of_nat (length [f1; half])
  /\ Z.of_nat (length [f1; half]) <= 2
  /\ getitem [f1; half] 1 = Ok half
  /\ getitem [f1; half] 2 = Err IndexError.
Proof.
  assert (Hin : 0 <= 1 < Z.of_nat (length [f1; half])) by (simpl; lia).
  assert (Hout : Z.of_nat (length [f1; half]) <= 2) by (simpl; lia).
  split; [exact Hin|]. split; [exact Hout|]. split.
  - destruct (schedule_lookup_exact_or_index_error (tensor := float) [f1; half] 1)
      as [H _].
    destruct (H Hin) as (v & Hv & Hg & _).
    simpl in Hv. injection Hv as <-. exact Hg.
  - destruct (schedule_lookup_exact_or_index_error (tensor := float) [f1; half] 2)
      as [_ H].
    destruct (H Hout) as (Hg & _). exact Hg.
Defined.

End OnDemo.

End TrainFacts.

(** ** evaluate *)

Module EvaluateFacts.

Import Evaluate.

Section Facts.

Context {imgs row box : Type}.
Variable C : @collab imgs row.

Implicit Types (m : gmap string (list (float * Z))) (tgt : list Z).

(** *** Masks *)

Lemma masked_select_filter {A} (p : A -> bool) (xs : list A) :
  masked_select xs (map p xs) = List.filter p xs.
Proof.
  induction xs as [|x xs IH]; simpl; [reflexivity|].
  rewrite IH. reflexivity.
Qed.

(** Whatever the mask selects sits at a position where the mask is set. *)
Lemma masked_select_position {A} (xs : list A) : forall (mask : list bool) x,
  In x (masked_select xs mask) ->
  exists j, xs !! j = Some x /\ mask !! j = Some true.
Proof.
  induction xs as [|y xs IH]; intros [|[] mask] x Hx; simpl in Hx; try contradiction.
  - destruct Hx as [<-|Hx]; [exists 0%nat; split; reflexivity|].
    destruct (IH mask x Hx) as (j & H1 & H2). exists (S j). split; assumption.
  - destruct (IH mask x Hx) as (j & H1 & H2). exists (S j). split; assumption.
Qed.

Lemma class_mask_position tgt class_id j :
  map (fun t => t =? class_id) tgt !! j = Some true -> tgt !! j = Some class_id.
Proof.
  rewrite list_lookup_fmap. destruct (tgt !! j) as [t|]; simpl; [|discriminate].
  intros H. injection H as H. apply Z.eqb_eq in H. congruence.
Qed.

Lemma class_count_zero tgt class_id :
  ~ In class_id tgt ->
  masked_select tgt (map (fun t => t =? class_id) tgt) = [].
Proof.
  intros Hn. rewrite masked_select_filter.
  induction tgt as [|t tgt IH]; simpl; [reflexivity|].
  destruct (t =? class_id) eqn:E.
  - exfalso. apply Hn. left. apply Z.eqb_eq. exact E.
  - apply IH. intros H. apply Hn. right. exact H.
Qed.

Lemma class_count_pos tgt class_id :
  In class_id tgt ->
  0 < Z.of_nat (length (masked_select tgt (map (fun t => t =? class_id) tgt))).
Proof.
  intros Hin. rewrite masked_select_filter.
  induction tgt as [|t tgt IH]; simpl in *; [contradiction|].
  destruct (t =? class_id) eqn:E; [simpl; lia|].
  destruct Hin as [->|Hin]; [rewrite Z.eqb_refl in E; discriminate | auto].
Qed.

(** *** Meters *)

Lemma meter_update_same name v n m :
  meter_update name v n m !! name = Some (default [] (m !! name) ++ [(v, n)]).
Proof. unfold meter_update. apply lookup_insert_eq. Qed.

Lemma meter_update_other name v n m k :
  name <> k -> meter_update name v n m !! k = m !! k.
Proof. intros H. unfold meter_update. apply lookup_insert_ne. exact H. Qed.

(** The meters of a class are named after it and after nothing else. *)
Lemma acc1_name_inj (n1 n2 : string) : ("acc1_" ++ n1 = "acc1_" ++ n2)%string -> n1 = n2.
Proof. simpl. intros H. injection H as H. exact H. Qed.

Lemma acc5_name_inj (n1 n2 : string) : ("acc5_" ++ n1 = "acc5_" ++ n2)%string -> n1 = n2.
Proof. simpl. intros H. injection H as H. exact H. Qed.

(** *** The per-class loop *)

Lemma class_update_absent output tgt m class_name class_id :
  ~ In class_id tgt -> class_update C output tgt m (class_name, class_id) = m.
Proof.
  intros Hn. unfold class_update. rewrite (class_count_zero tgt class_id Hn).
  reflexivity.
Qed.

Lemma class_update_other_name output tgt m class_name class_id name :
  class_name <> name ->
  class_update C output tgt m (class_name, class_id) !! ("acc1_" ++ name)%string
    = m !! ("acc1_" ++ name)%string
  /\ class_update C output tgt m (class_name, class_id) !! ("acc5_" ++ name)%string
     = m !! ("acc5_" ++ name)%string.
Proof.
  intros Hne. unfold class_update.
  destruct (0 <? _); [|split; reflexivity].
  destruct (accuracy C _ _) as [a1 a5].
  split; rewrite !meter_update_other; try reflexivity;
    intros H; simpl in H; first [discriminate H | injection H as H; contradiction].
Qed.

Lemma class_loop_absent output tgt name class_to_idx : forall m,
  (forall class_id, In (name, class_id) class_to_idx -> ~ In class_id tgt) ->
  fold_left (class_update C output tgt) class_to_idx m !! ("acc1_" ++ name)%string
    = m !! ("acc1_" ++ name)%string
  /\ fold_left (class_update C output tgt) class_to_idx m !! ("acc5_" ++ name)%string
     = m !! ("acc5_" ++ name)%string.
Proof.
  induction class_to_idx as [|[n id] rest IH]; intros m Habs; cbn [fold_left];
    [split; reflexivity|].
  destruct (IH (class_update C output tgt m (n, id))) as [H1 H5].
  { intros class_id Hin. apply Habs. right. exact Hin. }
  rewrite H1, H5.
  destruct (string_dec n name) as [->|Hne].
  - rewrite class_update_absent; [split; reflexivity|].
    apply Habs. left. reflexivity.
  - apply class_update_other_name. exact Hne.
Qed.

Lemma class_update_present output tgt m class_name class_id :
  In class_id tgt ->
  let mask := map (fun t => t =? class_id) tgt in
  let acc := accuracy C (masked_select output mask) (masked_select tgt mask) in
  let n := Z.of_nat (length (masked_select tgt mask)) in
  class_update C output tgt m (class_name, class_id) !! ("acc1_" ++ class_name)%string
    = Some (default [] (m !! ("acc1_" ++ class_name)%string) ++ [(fst acc, n)])
  /\ class_update C output tgt m (class_name, class_id) !! ("acc5_" ++ class_name)%string
     = Some (default [] (m !! ("acc5_" ++ class_name)%string) ++ [(snd acc, n)]).
Proof.
  intros Hin mask acc n. subst mask acc n. unfold class_update.
  pose proof (class_count_pos tgt class_id Hin) as Hpos.
  destruct (0 <? _) eqn:E; [|lia].
  destruct (accuracy C _ _) as [a1 a5]. simpl fst. simpl snd. split.
  - rewrite meter_update_other, meter_update_same; [reflexivity|].
    intros H; simpl in H; discriminate H.
  - rewrite meter_update_same, meter_update_other; [reflexivity|].
    intros H; simpl in H; discriminate H.
Qed.

(** *** One batch, and the whole run *)

Lemma eval_batch_absent class_to_idx (s : state) (b : @batch imgs box) name :
  (forall class_id, In (name, class_id) class_to_idx -> ~ In class_id (target b)) ->
  meters (eval_batch C class_to_idx s b) !! ("acc1_" ++ name)%string
    = meters s !! ("acc1_" ++ name)%string
  /\ meters (eval_batch C class_to_idx s b) !! ("acc5_" ++ name)%string
     = meters s !! ("acc5_" ++ name)%string.
Proof.
  intros Habs. unfold eval_batch.
  destruct (accuracy C (model C (images b)) (target b)) as [a1 a5]. cbn [meters].
  destruct (class_loop_absent (model C (images b)) (target b) name class_to_idx
              (meter_update "acc5" a5 (batch_size C (images b))
                 (meter_update "acc1" a1 (batch_size C (images b))
                    (meter_update "loss"
                       (criterion C (model C (images b)) (target b)) 1 (meters s))))
              Habs) as [H1 H5].
  rewrite H1, H5.
  split; rewrite !meter_update_other; try reflexivity;
    intros H; simpl in H; discriminate H.
Qed.

Lemma eval_loop_absent class_to_idx name (bs : list (@batch imgs box)) : forall s : state,
  (forall b, In b bs ->
             forall class_id, In (name, class_id) class_to_idx -> ~ In class_id (target b)) ->
  meters (fold_left (eval_batch C class_to_idx) bs s) !! ("acc1_" ++ name)%string
    = meters s !! ("acc1_" ++ name)%string
  /\ meters (fold_left (eval_batch C class_to_idx) bs s) !! ("acc5_" ++ name)%string
     = meters s !! ("acc5_" ++ name)%string.
Proof.
  induction bs as [|b rest IH]; intros s Habs; cbn [fold_left]; [split; reflexivity|].
  destruct (IH (eval_batch C class_to_idx s b)) as [H1 H5].
  { intros b' Hb'. apply Habs. right. exact Hb'. }
  rewrite H1, H5. apply eval_batch_absent. apply Habs. left. reflexivity.
Qed.

(** The per-class loop: for a batch and a class (name, id) of
    [class_to_idx], the samples handed to [accuracy] for that class are those
    of the batch whose label
    is the class id, and nothing else; when the batch has samples of the
    class, the meters acc1_name and acc5_name receive that accuracy weighted
    by their number; when it has none, the batch leaves these two meters as
    they were, so that a run in which no batch has a sample of the class
    returns no entry for them; in particular with classes neg = 0 and
    pos = 1, batches of pos samples only give no acc1_neg and no acc5_neg. *)
Theorem per_class_accuracy_only_over_class_samples
        class_to_idx (s : state) (b : @batch imgs box) name class_id :
  let output := model C (images b) in
  let mask := map (fun t => t =? class_id) (target b) in
  let rows := masked_select output mask in
  let labels := masked_select (target b) mask in
  Forall (fun t => t = class_id) labels
  /\ (forall r, In r rows ->
                exists j, output !! j = Some r /\ target b !! j = Some class_id)
  /\ (In class_id (target b) ->
      forall m,
        class_update C output (target b) m (name, class_id) !! ("acc1_" ++ name)%string
        = Some (default [] (m !! ("acc1_" ++ name)%string)
                  ++ [(fst (accuracy C rows labels), Z.of_nat (length labels))])
        /\ class_update C output (target b) m (name, class_id) !! ("acc5_" ++ name)%string
           = Some (default [] (m !! ("acc5_" ++ name)%string)
                     ++ [(snd (accuracy C rows labels), Z.of_nat (length labels))]))
  /\ ((forall id, In (name, id) class_to_idx -> ~ In id (target b)) ->
      meters (eval_batch C class_to_idx s b) !! ("acc1_" ++ name)%string
        = meters s !! ("acc1_" ++ name)%string
      /\ meters (eval_batch C class_to_idx s b) !! ("acc5_" ++ name)%string
         = meters s !! ("acc5_" ++ name)%string)
  /\ (forall bs : list (@batch imgs box),
        (forall b', In b' bs ->
                    forall id, In (name, id) class_to_idx -> ~ In id (target b')) ->
        meters (evaluate C class_to_idx bs) !! ("acc1_" ++ name)%string = None
        /\ meters (evaluate C class_to_idx bs) !! ("acc5_" ++ name)%string = None)
  /\ (forall bs : list (@batch imgs box),
        (forall b', In b' bs -> Forall (fun t => t = 1) (target b')) ->
        meters (evaluate C [("neg", 0); ("pos", 1)] bs) !! "acc1_neg" = None
        /\ meters (evaluate C [("neg", 0); ("pos", 1)] bs) !! "acc5_neg" = None).
Proof.
  intros output mask rows labels. subst output mask rows labels.
  split; [|split; [|split; [|split; [|split]]]].
  - rewrite masked_select_filter. rewrite Forall_forall. intros t Ht.
    apply list_elem_of_In, List.filter_In in Ht. apply Z.eqb_eq, Ht.
  - intros r Hr. destruct (masked_select_position _ _ _ Hr) as (j & H1 & H2).
    exists j. split; [exact H1 | apply class_mask_position, H2].
  - intros Hin m. apply class_update_present. exact Hin.
  - apply eval_batch_absent.
  - intros bs Habs. unfold evaluate.
    destruct (eval_loop_absent class_to_idx name bs
                {| meters := ∅; written := []; cnt := 0 |} Habs) as [H1 H5].
    rewrite H1, H5. split; apply lookup_empty.
  - intros bs Hpos. unfold evaluate.
    destruct (eval_loop_absent [("neg", 0); ("pos", 1)] "neg" bs
                {| meters := ∅; written := []; cnt := 0 |}) as [H1 H5].
    + intros b' Hb' id Hid Hin. specialize (Hpos b' Hb').
      rewrite Forall_forall in Hpos. apply list_elem_of_In, Hpos in Hin.
      destruct Hid as [Hid|[Hid|[]]];
        [injection Hid as <-; discriminate Hin | discriminate Hid].
    + change ("acc1_" ++ "neg")%string with "acc1_neg" in H1.
      change ("acc5_" ++ "neg")%string with "acc5_neg" in H5.
      rewrite H1, H5. split; apply lookup_empty.
Qed.

End Facts.

Lemma per_class_accuracy_only_over_class_samples_witness :
  In 1 (target Demo.pos_batch)
  /\ (forall id, In ("neg", id) [("neg", 0); ("pos", 1)] -> ~ In id (target Demo.pos_batch))
  /\ meters (evaluate Demo.eval_demo [("neg", 0); ("pos", 1)] [Demo.pos_batch]) !! "acc1_neg"
     = None
  /\ class_update Demo.eval_demo (images Demo.pos_batch) (target Demo.pos_batch) ∅ ("pos", 1)
       !! "acc1_pos"
     = Some [(Demo.percent 1 2, 2)].
Proof.
  assert (Hin : In 1 (target Demo.pos_batch)) by (left; reflexivity).
  assert (Habs : forall id, In ("neg", id) [("neg", 0); ("pos", 1)] ->
                            ~ In id (target Demo.pos_batch)).
  { intros id [Hid|[Hid|[]]] [H|[H|[]]]; congruence. }
  destruct (per_class_accuracy_only_over_class_samples
              Demo.eval_demo [("neg", 0); ("pos", 1)] Demo.empty_eval Demo.pos_batch
              "pos" 1) as (_ & _ & Hpresent & _ & _ & Hneg).
  split; [exact Hin|]. split; [exact Habs|]. split.
  - apply Hneg. intros b' [<-|[]]. repeat constructor.
  - destruct (Hpresent Hin ∅) as [H1 _]. exact H1.
Defined.

End EvaluateFacts.

(** ** prediction *)

Module PredictionFacts.

Import Prediction.

(** *** Ground truth from the file name *)

Lemma split_nonempty sep s : split sep s <> [].
Proof.
  destruct s as [|c rest]; simpl; [discriminate|].
  destruct (Ascii.eqb c sep); [discriminate|].
  destruct (split sep rest); discriminate.
Qed.

(** The first piece of a name that starts with a character other than the
    separator starts with that character. *)
Lemma split_head sep c rest :
  Ascii.eqb c sep = false ->
  exists seg segs, split sep (String c rest) = String c seg :: segs.
Proof.
  intros Hc. simpl. rewrite Hc.
  destruct (split sep rest) as [|seg segs]; eauto.
Qed.

Lemma char_at_0 c s : char_at (String c s) 0 = Ok c.
Proof.
  unfold char_at.
  destruct (getitem_in_bounds (list_ascii_of_string (String c s)) 0) as (x & Hx & ->).
  - simpl. lia.
  - simpl in Hx. congruence.
Qed.

Lemma char_at_1 c0 c1 s : char_at (String c0 (String c1 s)) 1 = Ok c1.
Proof.
  unfold char_at.
  destruct (getitem_in_bounds (list_ascii_of_string (String c0 (String c1 s))) 1)
    as (x & Hx & ->).
  - simpl. lia.
  - simpl in Hx. congruence.
Qed.

(** A name that starts with ["t"] and a decimal digit has that digit as
    its label, whatever follows. *)
Lemma parse_target_t_digit (d : ascii) (rest : string) :
  48 <= Z.of_N (N_of_ascii d) <= 57 ->
  parse_target (String "t" (String d rest)) = Ok (Z.of_N (N_of_ascii d) - 48).
Proof.
  intros Hd. unfold parse_target.
  assert (Hsep : Ascii.eqb d "_" = false).
  { apply Ascii.eqb_neq. intros ->. simpl in Hd. lia. }
  destruct (split_head "_" d rest Hsep) as (seg & segs & Hs).
  change (split "_" (String "t" (String d rest)))
    with (match split "_" (String d rest) with
          | seg :: segs => String "t" seg :: segs
          | [] => [String "t" EmptyString]
          end).
  rewrite Hs. change (getitem (String "t" (String d seg) :: segs) 0)
    with (Ok (String "t" (String d seg))).
  cbv beta iota. rewrite char_at_0. cbv beta iota.
  change (Ascii.eqb "t" "t") with true. cbv beta iota.
  rewrite char_at_1. unfold int_of_char.
  replace ((48 <=? Z.of_N (N_of_ascii d)) && (Z.of_N (N_of_ascii d) <=? 57))
    with true by lia.
  reflexivity.
Qed.

(** A name that starts with anything but ["t"] and ["_"] has the sentinel
    -1 as its label. *)
Lemma parse_target_other_initial (c : ascii) (rest : string) :
  Ascii.eqb c "t" = false -> Ascii.eqb c "_" = false ->
  parse_target (String c rest) = Ok (-1).
Proof.
  intros Ht Hsep. unfold parse_target.
  destruct (split_head "_" c rest Hsep) as (seg & segs & ->).
  change (getitem (String c seg :: segs) 0) with (Ok (String c seg)).
  cbv beta iota. rewrite char_at_0. cbv beta iota. rewrite Ht. reflexivity.
Qed.

(** The four names of the spec's example. *)
Example parse_target_examples :
  map parse_target ["t0_a.jpg"; "t1_b.jpg"; "neg_c.jpg"; "pos_d.jpg"]
  = [Ok 0; Ok 1; Ok (-1); Ok (-1)].
Proof. reflexivity. Qed.

Example infer_examples :
  infer (fun _ => (0, FloatLit.half))
        [("root", "t0_a.jpg"); ("root", "t1_b.jpg"); ("root", "neg_c.jpg"); ("root", "pos_d.jpg")]
  = Ok (map (fun '(t, n) => {| pred := 0; conf := FloatLit.half; target := t;
                               path := ("root", n) |})
            [(0, "t0_a.jpg"); (1, "t1_b.jpg"); (-1, "neg_c.jpg"); (-1, "pos_d.jpg")]).
Proof. reflexivity. Qed.

(** C7, on the code: file names without a [t<digit>] prefix that do not get
    the sentinel but an exception: ["t"] followed by a character that is not
    a digit is a ValueError of [int], ["t"] alone and an empty first piece
    are an IndexError, and the exception ends the whole inference loop. *)
Theorem parse_target_raises_without_pattern :
  parse_target "test_1.jpg" = Err ValueError
  /\ parse_target "tumor.png" = Err ValueError
  /\ parse_target "t_1.jpg" = Err IndexError
  /\ parse_target "_crop.jpg" = Err IndexError
  /\ parse_target "" = Err IndexError
  /\ infer (fun _ => (0, FloatLit.half)) [("root", "neg_c.jpg"); ("root", "test_1.jpg")]
     = Err ValueError.
Proof. repeat split; reflexivity. Qed.

(** *** The statistical report *)

Lemma indices_from_In p result : forall start i,
  In i (indices_from start p result)
  <-> exists x, (start <= i)%nat /\ result !! (i - start)%nat = Some x /\ p x = true.
Proof.
  induction result as [|y rest IH]; intros start i; simpl.
  - split; [contradiction | intros (x & _ & H & _); discriminate].
  - assert (Hrest : In i (indices_from (S start) p rest)
                    <-> exists x, (start < i)%nat
                                  /\ (y :: rest) !! (i - start)%nat = Some x /\ p x = true).
    { rewrite IH. split; intros (x & Hle & Hx & Hp); exists x.
      - replace (i - start)%nat with (S (i - S start)) by lia. auto with lia.
      - replace (i - start)%nat with (S (i - S start)) in Hx by lia. auto with lia. }
    destruct (p y) eqn:Hy; simpl; rewrite ?Hrest.
    + split.
      * intros [<-|(x & Hlt & Hx & Hp)].
        -- exists y. rewrite Nat.sub_diag. auto.
        -- exists x. auto with lia.
      * intros (x & Hle & Hx & Hp).
        destruct (decide (start = i)) as [->|Hne]; [left; reflexivity|].
        right. exists x. auto with lia.
    + split.
      * intros (x & Hlt & Hx & Hp). exists x. auto with lia.
      * intros (x & Hle & Hx & Hp). exists x. split; [|auto].
        destruct (decide (start = i)) as [->|Hne]; [|lia].
        rewrite Nat.sub_diag in Hx. simpl in Hx. congruence.
Qed.

(** With indices counted from 0, a bucket holds the positions of the
    records that pass its test. *)
Lemma indices_from_0 p result i x :
  result !! i = Some x -> (In i (indices_from 0 p result) <-> p x = true).
Proof.
  intros Hx. rewrite indices_from_In, Nat.sub_0_r. split.
  - intros (y & _ & Hy & Hp). congruence.
  - intros Hp. exists x. auto with lia.
Qed.

Lemma length_indices_from p result : forall start,
  length (indices_from start p result) = length (List.filter p result).
Proof.
  induction result as [|y rest IH]; intros start; simpl; [reflexivity|].
  destruct (p y); simpl; rewrite IH; reflexivity.
Qed.

Lemma length_confs p result : length (confs p result) = length (List.filter p result).
Proof. unfold confs. apply length_map. Qed.

(** A record predicted 0 or 1 passes exactly one of the four tests, any
    other record passes none. *)
Lemma buckets_of_binary x : buckets_of x = if binary x then 1%nat else 0%nat.
Proof.
  unfold buckets_of, binary, is_TN, is_TP, is_FN, is_FP.
  destruct (pred x =? target x), (pred x =? 0) eqn:E0, (pred x =? 1) eqn:E1;
    try reflexivity; lia.
Qed.

Lemma four_filters_total result :
  (length (List.filter is_TN result) + length (List.filter is_TP result)
   + length (List.filter is_FN result) + length (List.filter is_FP result))%nat
  = length (List.filter binary result).
Proof.
  induction result as [|x rest IH]; simpl; [reflexivity|].
  pose proof (buckets_of_binary x) as Hx. unfold buckets_of in Hx.
  destruct (is_TN x), (is_TP x), (is_FN x), (is_FP x), (binary x);
    simpl in *; lia.
Qed.

(** Which branch the report takes: the sign of the sum of the labels. *)
Lemma pred_eval_branch result rep :
  pred_eval result = Ok rep ->
  result <> []
  /\ branch rep = (if fold_right Z.add 0 (map target result) <? 0
                   then ByPrediction else FourBuckets).
Proof.
  unfold pred_eval, sum_targets.
  destruct result as [|x rest]; [discriminate|].
  destruct (_ <? 0); intros H; injection H as <-; split; (discriminate || reflexivity).
Qed.

Lemma pred_eval_four_buckets result rep :
  pred_eval result = Ok rep -> branch rep = FourBuckets ->
  conf_TN rep = confs is_TN result /\ conf_TP rep = confs is_TP result
  /\ conf_FN rep = confs is_FN result /\ conf_FP rep = confs is_FP result
  /\ itn rep = indices_from 0 is_TN result /\ itp rep = indices_from 0 is_TP result
  /\ ifn rep = indices_from 0 is_FN result /\ ifp rep = indices_from 0 is_FP result.
Proof.
  unfold pred_eval, sum_targets.
  destruct result as [|x rest]; [discriminate|].
  destruct (_ <? 0); intros H; injection H as <-; simpl; [discriminate|].
  intros _. repeat split.
Qed.

Lemma sum_labels_known result :
  Forall (fun x => known x = true /\ 0 <= target x) result ->
  0 <= fold_right Z.add 0 (map target result).
Proof.
  induction 1 as [|x rest [_ Hx] _ IH]; simpl; lia.
Qed.

Lemma sum_labels_unknown result :
  result <> [] -> Forall (fun x => known x = false) result ->
  fold_right Z.add 0 (map target result) < 0.
Proof.
  intros Hne H.
  assert (Hsum : fold_right Z.add 0 (map target result) = - Z.of_nat (length result)).
  { clear Hne. induction H as [|x rest Hx _ IH]; [reflexivity|].
    unfold known in Hx. apply negb_false_iff, Z.eqb_eq in Hx.
    simpl fold_right. rewrite IH, Hx. simpl length. lia. }
  rewrite Hsum. destruct result; [contradiction | simpl; lia].
Qed.

(** When every label is known (a digit), the report has four buckets;
    when none is, it goes by the prediction alone. *)
Lemma uniform_labels_branch result rep :
  pred_eval result = Ok rep ->
  (Forall (fun x => known x = true /\ 0 <= target x) result -> branch rep = FourBuckets)
  /\ (Forall (fun x => known x = false) result -> branch rep = ByPrediction).
Proof.
  intros H. destruct (pred_eval_branch result rep H) as [Hne ->]. split; intros Hall.
  - pose proof (sum_labels_known result Hall).
    destruct (_ <? 0) eqn:E; [lia | reflexivity].
  - pose proof (sum_labels_unknown result Hne Hall).
    destruct (_ <? 0) eqn:E; [reflexivity | lia].
Qed.

(** C5, on the code: with labels 1 and unknown the sum of the labels is 0,
    the report has four buckets and the record without ground truth is
    counted among the false negatives, so the buckets hold two records
    while one record has a known ground truth; and a record predicted as a
    third class is in no bucket at all. *)
Lemma four_buckets_count_records_without_ground_truth :
  (exists rep,
      pred_eval [Demo.mk_rec 0 1; Demo.mk_rec 0 (-1)] = Ok rep
      /\ branch rep = FourBuckets
      /\ In 1%nat (ifn rep)
      /\ bucket_total rep = 2%nat
      /\ known_count [Demo.mk_rec 0 1; Demo.mk_rec 0 (-1)] = 1%nat
      /\ bucket_total rep <> known_count [Demo.mk_rec 0 1; Demo.mk_rec 0 (-1)])
  /\ (exists rep,
         pred_eval [Demo.mk_rec 2 1] = Ok rep
         /\ branch rep = FourBuckets
         /\ buckets_of (Demo.mk_rec 2 1) = 0%nat
         /\ bucket_total rep = 0%nat
         /\ known_count [Demo.mk_rec 2 1] = 1%nat).
Proof.
  split; eexists; (split; [reflexivity|]); repeat split.
  - right. left. reflexivity.
  - discriminate.
Qed.

Lemma binary_known_count result :
  Forall (fun x => binary x = true /\ known x = true) result ->
  length (List.filter binary result) = known_count result.
Proof.
  unfold known_count.
  induction 1 as [|x rest [Hb Hk] _ IH]; simpl; [reflexivity|].
  rewrite Hb, Hk. simpl. rewrite IH. reflexivity.
Qed.

(** C5, as the code has it: in the branch with four buckets, a bucket
    holds the positions of the records that pass its test; a record
    predicted 0 or 1 passes exactly one of the four tests, with or without a
    known ground truth; a record with predicted = actual = 1 is a true
    positive and in no other bucket; each bucket has as many confidences as
    positions; the four counts sum to the number of records predicted 0 or 1,
    which is the number of records with known ground truth when every record
    is predicted 0 or 1 and has a known ground truth. *)
Theorem four_buckets_partition_binary_predictions result rep :
  pred_eval result = Ok rep ->
  branch rep = FourBuckets ->
  (forall i x,
      result !! i = Some x ->
      (In i (itn rep) <-> is_TN x = true)
      /\ (In i (itp rep) <-> is_TP x = true)
      /\ (In i (ifn rep) <-> is_FN x = true)
      /\ (In i (ifp rep) <-> is_FP x = true)
      /\ (binary x = true -> buckets_of x = 1%nat)
      /\ (pred x = 1 -> target x = 1 ->
          In i (itp rep) /\ ~ In i (itn rep) /\ ~ In i (ifn rep) /\ ~ In i (ifp rep)))
  /\ length (conf_TN rep) = length (itn rep)
  /\ length (conf_TP rep) = length (itp rep)
  /\ length (conf_FN rep) = length (ifn rep)
  /\ length (conf_FP rep) = length (ifp rep)
  /\ bucket_total rep = length (List.filter binary result)
  /\ (Forall (fun x => binary x = true /\ known x = true) result ->
      bucket_total rep = known_count result).
Proof.
  intros Hrep Hbranch.
  destruct (pred_eval_four_buckets result rep Hrep Hbranch)
    as (Htn & Htp & Hfn & Hfp & Hitn & Hitp & Hifn & Hifp).
  assert (Htotal : bucket_total rep = length (List.filter binary result)).
  { unfold bucket_total. rewrite Htn, Htp, Hfn, Hfp, !length_confs.
    apply four_filters_total. }
  refine (conj _ (conj _ (conj _ (conj _ (conj _ (conj Htotal _)))))).
  - intros i x Hx. rewrite Hitn, Hitp, Hifn, Hifp.
    pose proof (indices_from_0 is_TN result i x Hx) as Etn.
    pose proof (indices_from_0 is_TP result i x Hx) as Etp.
    pose proof (indices_from_0 is_FN result i x Hx) as Efn.
    pose proof (indices_from_0 is_FP result i x Hx) as Efp.
    split; [exact Etn|]. split; [exact Etp|]. split; [exact Efn|]. split; [exact Efp|].
    split.
    + intros Hb. rewrite buckets_of_binary, Hb. reflexivity.
    + intros Hp Ht. rewrite Etn, Etp, Efn, Efp.
      unfold is_TN, is_TP, is_FN, is_FP. rewrite Hp, Ht. simpl.
      repeat split; discriminate.
  - rewrite Htn, Hitn, length_confs, length_indices_from. reflexivity.
  - rewrite Htp, Hitp, length_confs, length_indices_from. reflexivity.
  - rewrite Hfn, Hifn, length_confs, length_indices_from. reflexivity.
  - rewrite Hfp, Hifp, length_confs, length_indices_from. reflexivity.
  - intros Hall. rewrite Htotal. apply binary_known_count. exact Hall.
Qed.

Lemma four_buckets_partition_binary_predictions_witness :
  (exists rep,
      pred_eval [Demo.mk_rec 1 1; Demo.mk_rec 0 1; Demo.mk_rec 1 0; Demo.mk_rec 0 0] = Ok rep
      /\ branch rep = FourBuckets
      /\ bucket_total rep = 4%nat
      /\ In 0%nat (itp rep) /\ ~ In 0%nat (ifp rep)).
Proof.
  eexists. split; [reflexivity|]. split; [reflexivity|].
  edestruct (four_buckets_partition_binary_predictions
               [Demo.mk_rec 1 1; Demo.mk_rec 0 1; Demo.mk_rec 1 0; Demo.mk_rec 0 0])
    as (Hrec & _ & _ & _ & _ & Htotal & _); [reflexivity | reflexivity |].
  split; [exact Htotal|].
  destruct (Hrec 0%nat (Demo.mk_rec 1 1) eq_refl) as (_ & _ & _ & _ & _ & Htp).
  destruct (Htp eq_refl eq_refl) as (H1 & _ & _ & H4). split; [exact H1 | exact H4].
Defined.

(** C6, on the code: with one record labelled 0 and one record without
    ground truth, the sum of the labels is -1 and the report goes by the
    prediction alone, although one record has a known ground truth; with
    labels 1 and unknown the sum is 0 and it has four buckets; with no
    record at all it raises IndexError. *)
Theorem report_branch_follows_label_sum :
  (known_count [Demo.mk_rec 0 0; Demo.mk_rec 0 (-1)] = 1%nat
   /\ exists rep, pred_eval [Demo.mk_rec 0 0; Demo.mk_rec 0 (-1)] = Ok rep
                  /\ branch rep = ByPrediction)
  /\ (known_count [Demo.mk_rec 0 1; Demo.mk_rec 0 (-1)] = 1%nat
      /\ exists rep, pred_eval [Demo.mk_rec 0 1; Demo.mk_rec 0 (-1)] = Ok rep
                     /\ branch rep = FourBuckets)
  /\ pred_eval [] = Err IndexError.
Proof.
  repeat split; eexists; split; reflexivity.
Qed.

End PredictionFacts.

(** ** train_one_epoch: the whole epoch *)

Module TrainEpoch.

Import Train TrainFacts.

Section Facts.

Context {W batch output tensor : Type}.
Variable C : @collab W batch output tensor.

Local Abbreviation M := (@M W tensor).
Local Abbreviation event := (@event tensor).

(** *** Counting calls *)

Lemma count_calls_app (P : event -> bool) (xs ys : list event) :
  count_calls P (xs ++ ys) = (count_calls P xs + count_calls P ys)%nat.
Proof. unfold count_calls. rewrite List.filter_app, length_app. reflexivity. Qed.

Lemma count_calls_none (P Q : event -> bool) (evs : list event) :
  (forall e, Q e = true -> P e = false) ->
  Forall (fun e => Q e = true) evs -> count_calls P evs = 0%nat.
Proof.
  intros HQ H. unfold count_calls. induction H as [|e evs He _ IH]; [reflexivity|].
  simpl. rewrite (HQ e He). exact IH.
Qed.

(** The calls counted by a predicate on accumulation calls are those of the
    accumulation stage of an iteration that gets there. *)
Lemma micro_step_count (P : event -> bool) a i b (s : @state W) :
  (forall e, P e = true -> is_optim_call e = true) ->
  count_calls P (fst (micro_step C a i b s))
  = match up_to_loss C a i b s with
    | (_, Ret (Some (_, _, _, loss)) _) =>
        if isfinite (item C loss)
        then count_calls P (accumulate_calls C a i loss) else 0%nat
    | _ => 0%nat
    end.
Proof.
  intros HP.
  assert (Hno : forall e : event, is_optim_call e = false -> P e = false).
  { intros e He. destruct (P e) eqn:E; [|reflexivity].
    apply HP in E. congruence. }
  assert (Hpre : forall ev x, up_to_loss C a i b s = (ev, x) -> count_calls P ev = 0%nat).
  { intros ev x H. apply (count_calls_none P (fun e => is_refresh e || is_forward e)).
    - intros e He. apply Hno. destruct e; simpl in *; congruence.
    - pose proof (up_to_loss_calls C a i b s) as Hc. rewrite H in Hc. exact Hc. }
  destruct (micro_step_cases C a i b s)
    as [(ev & s1 & H1 & H2)|[(ev & e & s1 & H1 & H2)|(ev & it & b' & out & loss & s1 & H1)]].
  - rewrite H2, H1. simpl. rewrite app_nil_r. eapply Hpre, H1.
  - rewrite H2, H1. simpl. eapply Hpre, H1.
  - rewrite H1. destruct (isfinite (item C loss)) eqn:Hf.
    + destruct (micro_step_finite C a i b s _ _ _ _ _ _ H1 Hf) as (gn & s' & -> & _).
      simpl. rewrite !count_calls_app, (Hpre _ _ H1).
      destruct (record_spec C a it b' out (item C loss) gn s') as (evs & -> & Hev & _).
      simpl. rewrite (count_calls_none P (fun e => negb (is_optim_call e)) evs).
      * lia.
      * intros e He. apply Hno. destruct (is_optim_call e); [discriminate | reflexivity].
      * eapply Forall_impl; [exact Hev|]. intros e ->. reflexivity.
    + rewrite (micro_step_nonfinite C a i b s _ _ _ _ _ _ H1 Hf). simpl.
      rewrite count_calls_app, (Hpre _ _ H1). unfold count_calls. simpl.
      rewrite (Hno (E_print_loss (item C loss))) by reflexivity. reflexivity.
Qed.

Lemma accumulate_calls_grad a i loss :
  count_calls is_grad_call (accumulate_calls C a i loss) = 1%nat.
Proof.
  unfold accumulate_calls, count_calls.
  destruct (use_amp a), (boundary a i), (model_ema a); reflexivity.
Qed.

Lemma accumulate_calls_zero_grad a i loss :
  count_calls is_zero_grad (accumulate_calls C a i loss)
  = opt_steps (accumulate_calls C a i loss).
Proof.
  unfold accumulate_calls, count_calls, opt_steps.
  destruct (use_amp a), (boundary a i) eqn:Hb, (model_ema a); simpl; rewrite ?Hb;
    reflexivity.
Qed.

Lemma accumulate_calls_ema a i loss :
  count_calls is_ema_update (accumulate_calls C a i loss)
  = if model_ema a then opt_steps (accumulate_calls C a i loss) else 0%nat.
Proof.
  unfold accumulate_calls, count_calls, opt_steps.
  destruct (use_amp a), (boundary a i) eqn:Hb, (model_ema a); simpl; rewrite ?Hb;
    reflexivity.
Qed.

(** *** The epoch around the loop *)

Lemma train_one_epoch_unfold a bs (s : @state W) :
  train_one_epoch C a bs s
  = match train_loop C a 0 bs (with_world (zero_grad C) s) with
    | (ev, Ret _ s1) =>
        (E_model_train :: E_zero_grad :: ev ++ [E_synchronize_between_processes],
         Ret tt s1)
    | (ev, Raise e s1) => (E_model_train :: E_zero_grad :: ev, Raise e s1)
    end.
Proof.
  unfold train_one_epoch, bind, emit, call. simpl.
  destruct (train_loop C a 0 bs (with_world (zero_grad C) s)) as [ev [[] s1|e s1]];
    reflexivity.
Qed.

(** *** What the loop keeps of the state *)

Section Keeps.

Variable R : @state W -> @state W -> Prop.
Hypothesis R_refl : forall s, R s s.
Hypothesis R_trans : forall s1 s2 s3, R s1 s2 -> R s2 s3 -> R s1 s3.
Hypothesis R_world : forall s w n,
  R s {| world := w; param_groups := param_groups s; fetched := n |}.

Lemma keeps_bind {A B} (m : M A) (k : A -> M B) :
  keeps R m -> (forall x, keeps R (k x)) -> keeps R (bind m k).
Proof.
  intros Hm Hk s. specialize (Hm s). unfold bind, final_state in *.
  destruct (m s) as [ev1 [x s1|e s1]]; simpl in *; [|exact Hm].
  specialize (Hk x s1). unfold final_state in Hk.
  destruct (k x s1) as [ev2 r]. simpl in *. eapply R_trans; eassumption.
Qed.

Lemma keeps_pure {A} (m : M A) :
  (forall s, final_state (m s) = s) -> keeps R m.
Proof. intros H s. rewrite H. apply R_refl. Qed.

Lemma keeps_call e f : keeps R (call e f : M unit).
Proof. intros s. apply R_world. Qed.

Lemma keeps_call_ret {A} e (f : W -> A * W) : keeps R (call_ret e f : M A).
Proof. intros s. unfold call_ret. destruct (f (world s)). apply R_world. Qed.

Lemma forward_keeps a b : keeps R (forward C a b).
Proof.
  unfold forward. apply keeps_bind.
  - destruct (mixup a); [apply keeps_call_ret | apply keeps_pure; reflexivity].
  - intros b'. apply keeps_bind; [apply keeps_call_ret|].
    intros out. apply keeps_pure. reflexivity.
Qed.

Lemma from_loss_keeps a i x : keeps R (from_loss C a i x).
Proof.
  destruct x as [[[it b'] out] loss]. intros s.
  destruct (isfinite (item C loss)) eqn:Hf.
  - destruct (from_loss_finite C a i it b' out loss s Hf) as (gn & s' & -> & Hfe & Hpg).
    unfold final_state. simpl. destruct s' as [w' gs' n']. simpl in *. subst gs'.
    apply R_world.
  - rewrite (from_loss_nonfinite C a i it b' out loss s Hf). apply R_refl.
Qed.

Lemma micro_step_keeps a i b :
  (forall it, keeps R (schedule a it i : M unit)) -> keeps R (micro_step C a i b).
Proof.
  intros Hs. unfold micro_step. apply keeps_bind.
  - unfold up_to_loss. apply keeps_bind.
    + apply keeps_pure. intros s. destruct (floordiv i (update_freq a)); reflexivity.
    + intros step. destruct (_ <=? _); [apply keeps_pure; reflexivity|].
      apply keeps_bind; [apply Hs|]. intros _.
      apply keeps_bind; [apply forward_keeps|].
      intros [[b' out] loss]. apply keeps_pure. reflexivity.
  - intros [x|]; [apply from_loss_keeps | apply keeps_pure; reflexivity].
Qed.

Lemma train_loop_keeps a bs : forall i,
  (forall it j, keeps R (schedule a it j : M unit)) -> keeps R (train_loop C a i bs).
Proof.
  induction bs as [|b rest IH]; intros i Hs; [apply keeps_pure; reflexivity|].
  simpl. apply keeps_bind; [intros s; apply R_world|]. intros _.
  apply keeps_bind; [apply micro_step_keeps; intros it; apply Hs|]. intros _. apply IH, Hs.
Qed.

Lemma train_one_epoch_keeps a bs :
  (forall it j, keeps R (schedule a it j : M unit)) -> keeps R (train_one_epoch C a bs).
Proof.
  intros Hs. unfold train_one_epoch.
  apply keeps_bind; [apply keeps_pure; reflexivity|]. intros _.
  apply keeps_bind; [apply keeps_call|]. intros _.
  apply keeps_bind; [apply train_loop_keeps, Hs|]. intros _.
  apply keeps_pure. reflexivity.
Qed.

End Keeps.

(** *** The refresh and the parameter groups *)

Lemma group_frame_refl g : group_frame g g.
Proof. split; auto. Qed.

Lemma group_frame_trans g1 g2 g3 :
  group_frame g1 g2 -> group_frame g2 g3 -> group_frame g1 g3.
Proof.
  intros [H1 H1'] [H2 H2']. split; [congruence|].
  intros Hn. rewrite H2', H1' by (rewrite ?H1'; assumption). reflexivity.
Qed.

Lemma refresh_group_frame a it i g :
  group_frame g (refresh_group (tensor := tensor) a it i g).1.2.
Proof.
  unfold refresh_group, group_frame.
  destruct (lr_schedule_values a) as [tbl|];
    [destruct (getitem tbl it)|];
    destruct (wd_schedule_values a) as [tbw|]; simpl;
    try (destruct (PrimFloat.ltb FloatLit.f0 (weight_decay g)) eqn:E);
    try destruct (getitem tbw it); simpl; split; auto; congruence.
Qed.

Lemma refresh_groups_frame a it gs : forall i,
  Forall2 group_frame gs (refresh_groups (tensor := tensor) a it i gs).1.2.
Proof.
  induction gs as [|g rest IH]; intros i; simpl; [constructor|].
  pose proof (refresh_group_frame a it i g) as Hg.
  destruct (refresh_group a it i g) as [[ev g'] [e|]]; simpl in *.
  - constructor; [exact Hg|]. apply Forall2_same_length_lookup_2; [reflexivity|].
    intros j x y Hx Hy. rewrite Hx in Hy. injection Hy as <-. apply group_frame_refl.
  - specialize (IH (S i)).
    destruct (refresh_groups a it (S i) rest) as [[ev' rest'] e']; simpl in *.
    constructor; assumption.
Qed.

Lemma groups_frame_refl (s : @state W) : groups_frame s s.
Proof.
  unfold groups_frame. induction (param_groups s); constructor;
    [apply group_frame_refl | assumption].
Qed.

Lemma groups_frame_trans (s1 s2 s3 : @state W) :
  groups_frame s1 s2 -> groups_frame s2 s3 -> groups_frame s1 s3.
Proof.
  unfold groups_frame. generalize (param_groups s1), (param_groups s2), (param_groups s3).
  intros l1 l2 l3 H12. revert l3.
  induction H12 as [|x y l1 l2 Hxy _ IH]; intros l3 H23; inversion H23; subst;
    constructor; [eapply group_frame_trans; eassumption | apply IH; assumption].
Qed.

Lemma schedule_groups_frame a it i : keeps groups_frame (schedule a it i : M unit).
Proof.
  intros s. unfold schedule. destruct (refresh_gate a i); [|apply groups_frame_refl].
  pose proof (refresh_groups_frame a it (param_groups s) 0%nat) as H.
  unfold final_state, groups_frame.
  destruct (refresh_groups a it 0 (param_groups s)) as [[ev gs] [e|]]; exact H.
Qed.

(** X4: whatever an epoch does, and whether it returns or raises, it leaves
    the optimizer with the same number of parameter groups, each with its
    [lr_scale], and a group whose weight decay is not positive keeps its
    weight decay: the schedule never gives weight decay to a group that has
    none. *)
Theorem epoch_keeps_group_scales a bs (s : @state W) :
  let s' := final_state (train_one_epoch C a bs s) in
  length (param_groups s') = length (param_groups s)
  /\ map lr_scale (param_groups s') = map lr_scale (param_groups s)
  /\ (forall j g g',
        param_groups s !! j = Some g -> param_groups s' !! j = Some g' ->
        PrimFloat.ltb FloatLit.f0 (weight_decay g) = false ->
        weight_decay g' = weight_decay g).
Proof.
  intros s'.
  assert (H : groups_frame s s').
  { apply (train_one_epoch_keeps groups_frame groups_frame_refl groups_frame_trans).
    - intros s0 w n. apply (groups_frame_refl s0).
    - intros it j. apply schedule_groups_frame. }
  unfold groups_frame in H. split; [|split].
  - symmetry. eapply Forall2_length, H.
  - induction H as [|g g' l l' [Hg _] _ IH]; simpl; congruence.
  - intros j g g' Hg Hg' Hn.
    destruct (Forall2_lookup_lr _ _ _ _ _ _ H Hg Hg') as [_ Hwd]. apply Hwd, Hn.
Qed.

(** X6: without a learning-rate table and without a weight-decay table an
    epoch never writes to the parameter groups: they are at its end, or
    when it raises, what they were at its start. *)
Theorem epoch_without_tables_keeps_groups a bs (s : @state W) :
  lr_schedule_values a = None ->
  wd_schedule_values a = None ->
  param_groups (final_state (train_one_epoch C a bs s)) = param_groups s.
Proof.
  intros Hlr Hwd.
  apply (train_one_epoch_keeps same_groups); unfold same_groups.
  - reflexivity.
  - intros s1 s2 s3 H12 H23. congruence.
  - reflexivity.
  - intros it j s0. unfold schedule, refresh_gate. rewrite Hlr, Hwd. reflexivity.
Qed.

(** X1: with [update_freq] 0 and a loader that yields at least one batch,
    the epoch raises ZeroDivisionError on the first batch, after
    [model.train] and the initial gradient reset and before any other call;
    one batch has been pulled and the parameter groups are untouched. *)
Theorem zero_update_freq_raises_on_first_batch a b rest (s : @state W) :
  update_freq a = 0 ->
  train_one_epoch C a (b :: rest) s
  = ([E_model_train; E_zero_grad],
     Raise ZeroDivisionError (add_fetched 1 (with_world (zero_grad C) s))).
Proof.
  intros HF. rewrite train_one_epoch_unfold, train_loop_cons.
  unfold micro_step, bind. rewrite up_to_loss_zero_freq by exact HF. reflexivity.
Qed.

Lemma record_not_synchronize a it b out loss_value grad_norm (s : @state W) :
  count_calls is_synchronize (fst (record C a it b out loss_value grad_norm s)) = 0%nat.
Proof.
  unfold record, bind, emit, emit_all, get_groups, ret. cbv zeta.
  destruct (lr_bounds (param_groups s)) as [min_lr max_lr].
  destruct (use_amp a), (log_writer a), (wandb_logger a),
    (truthy C (if mixup a then PNone else PTensor (batch_acc C out b)));
    reflexivity.
Qed.

Lemma micro_step_not_synchronize a i b (s : @state W) :
  count_calls is_synchronize (fst (micro_step C a i b s)) = 0%nat.
Proof.
  assert (Hpre : forall ev x, up_to_loss C a i b s = (ev, x) ->
                              count_calls is_synchronize ev = 0%nat).
  { intros ev x H.
    apply (count_calls_none is_synchronize (fun e => is_refresh e || is_forward e)).
    - intros e He. destruct e; simpl in *; congruence.
    - pose proof (up_to_loss_calls C a i b s) as Hc. rewrite H in Hc. exact Hc. }
  destruct (micro_step_cases C a i b s)
    as [(ev & s1 & H1 & H2)|[(ev & e & s1 & H1 & H2)|(ev & it & b' & out & loss & s1 & H1)]].
  - rewrite H2. simpl. rewrite app_nil_r. eapply Hpre, H1.
  - rewrite H2. simpl. eapply Hpre, H1.
  - destruct (isfinite (item C loss)) eqn:Hf.
    + destruct (micro_step_finite C a i b s _ _ _ _ _ _ H1 Hf) as (gn & s' & -> & _).
      simpl. rewrite !count_calls_app, (Hpre _ _ H1), record_not_synchronize.
      rewrite (count_calls_none is_synchronize is_optim_call);
        [reflexivity | intros e; destruct e; simpl; congruence
         | apply accumulate_calls_optim].
    + rewrite (micro_step_nonfinite C a i b s _ _ _ _ _ _ H1 Hf). simpl.
      rewrite count_calls_app, (Hpre _ _ H1). reflexivity.
Qed.

Lemma train_loop_not_synchronize a bs : forall i (s : @state W),
  count_calls is_synchronize (fst (train_loop C a i bs s)) = 0%nat.
Proof.
  induction bs as [|b rest IH]; intros i s; [reflexivity|].
  rewrite train_loop_cons.
  pose proof (micro_step_not_synchronize a i b (add_fetched 1 s)) as Hm.
  destruct (micro_step C a i b (add_fetched 1 s)) as [ev [[] s1|e s1]]; [|exact Hm].
  specialize (IH (i + 1) s1). destruct (train_loop C a (i + 1) rest s1) as [ev2 r].
  simpl in *. rewrite count_calls_app, Hm, IH. reflexivity.
Qed.

(** X2: every epoch starts with [model.train] and the gradient reset; the
    metrics are synchronised between processes once, as the last call, when
    the loop over the loader finishes, and then every batch of the loader
    has been pulled; an epoch that raises never synchronises them. *)
Theorem epoch_synchronises_only_on_return a bs (s : @state W) :
  let r := train_one_epoch C a bs s in
  (exists evs, fst r = E_model_train :: E_zero_grad :: evs)
  /\ (raised r = None ->
      (exists evs, fst r = evs ++ [E_synchronize_between_processes]
                   /\ count_calls is_synchronize evs = 0%nat)
      /\ fetched (final_state r) = (length bs + fetched s)%nat)
  /\ (raised r <> None -> count_calls is_synchronize (fst r) = 0%nat).
Proof.
  intros r. subst r. rewrite train_one_epoch_unfold.
  pose proof (train_loop_not_synchronize a bs 0 (with_world (zero_grad C) s)) as Hn.
  destruct (train_loop C a 0 bs (with_world (zero_grad C) s)) as [ev [[] s1|e s1]] eqn:Hl;
    simpl in *.
  - split; [eauto|]. split; [|intros H; contradiction].
    intros _. split.
    + exists (E_model_train :: E_zero_grad :: ev). split; [reflexivity | exact Hn].
    + unfold final_state. simpl. rewrite (train_loop_fetched C a bs _ _ _ _ Hl). reflexivity.
  - split; [eauto|]. split; [intros H; discriminate|]. intros _. exact Hn.
Qed.

Lemma refresh_group_idempotent a it i g ev g' :
  refresh_group (tensor := tensor) a it i g = (ev, g', None) ->
  exists ev', refresh_group (tensor := tensor) a it i g' = (ev', g', None).
Proof.
  unfold refresh_group. destruct g as [l sc wd0].
  destruct (lr_schedule_values a) as [tbl|]; [destruct (getitem tbl it) as [v|e] eqn:Ev|];
    destruct (wd_schedule_values a) as [tbw|]; simpl;
    try (destruct (PrimFloat.ltb FloatLit.f0 wd0) eqn:E);
    try (destruct (getitem tbw it) as [w|e'] eqn:Ew); simpl;
    intros H; inversion H; subst; clear H; simpl; rewrite ?E, ?Ew; simpl;
    try (destruct (PrimFloat.ltb FloatLit.f0 w) eqn:E2); rewrite ?Ew;
    eexists; reflexivity.
Qed.

Lemma refresh_groups_idempotent a it gs : forall i ev gs',
  refresh_groups (tensor := tensor) a it i gs = (ev, gs', None) ->
  exists ev', refresh_groups (tensor := tensor) a it i gs' = (ev', gs', None).
Proof.
  induction gs as [|g rest IH]; intros i ev gs' H; simpl in H.
  - injection H as <- <-. exists []. reflexivity.
  - destruct (refresh_group a it i g) as [[ev1 g1] [e|]] eqn:Hg; [discriminate|].
    destruct (refresh_groups a it (S i) rest) as [[ev2 rest'] e2] eqn:Hr.
    injection H as <- <- ->.
    destruct (refresh_group_idempotent a it i g ev1 g1 Hg) as [ev1' Hg'].
    destruct (IH (S i) ev2 rest' Hr) as [ev2' Hr'].
    exists (ev1' ++ ev2'). simpl. rewrite Hg', Hr'. reflexivity.
Qed.

(** X3: a refresh that went through is idempotent: refreshing again at the
    same global step, at whatever micro-step, returns and leaves the whole
    state as the first refresh left it.  The refresh that line 50 repeats
    within an accumulation group therefore changes no parameter group. *)
Theorem refresh_again_changes_nothing a it i j (s : @state W) (ev : list event) s1 :
  refresh_gate a i = true ->
  schedule a it i s = (ev, Ret tt s1) ->
  exists ev' : list event, schedule a it j s1 = (ev', Ret tt s1).
Proof.
  intros Hg H. unfold schedule in *. rewrite Hg in H.
  destruct (refresh_gate a j); [|exists []; reflexivity].
  destruct (refresh_groups a it 0 (param_groups s)) as [[ev0 gs] [e|]] eqn:Hr;
    [discriminate|].
  injection H as <- <-. simpl.
  destruct (refresh_groups_idempotent a it (param_groups s) 0%nat ev0 gs Hr) as [ev' ->].
  exists ev'. reflexivity.
Qed.

Lemma refresh_group_within a it i g :
  (forall tbl, lr_schedule_values a = Some tbl -> 0 <= it < Z.of_nat (length tbl)) ->
  (forall tbl, wd_schedule_values a = Some tbl -> 0 <= it < Z.of_nat (length tbl)) ->
  exists ev g', refresh_group (tensor := tensor) a it i g = (ev, g', None)
                /\ refreshed a it g g'.
Proof.
  intros Hlr Hwd. unfold refresh_group, refreshed.
  destruct (lr_schedule_values a) as [tbl|];
    [destruct (getitem_in_bounds tbl it (Hlr tbl eq_refl)) as (v & Hv & ->)|];
    (destruct (wd_schedule_values a) as [tbw|];
     [destruct (getitem_in_bounds tbw it (Hwd tbw eq_refl)) as (w & Hw & ->)|]);
    simpl; try (destruct (PrimFloat.ltb FloatLit.f0 (weight_decay g)) eqn:E);
    do 2 eexists; (split; [reflexivity|]); simpl;
    repeat split; try congruence;
    intros; simplify_eq; congruence.
Qed.

Lemma refresh_groups_within a it gs : forall i,
  (forall tbl, lr_schedule_values a = Some tbl -> 0 <= it < Z.of_nat (length tbl)) ->
  (forall tbl, wd_schedule_values a = Some tbl -> 0 <= it < Z.of_nat (length tbl)) ->
  exists ev gs', refresh_groups (tensor := tensor) a it i gs = (ev, gs', None)
                 /\ Forall2 (refreshed a it) gs gs'.
Proof.
  induction gs as [|g rest IH]; intros i Hlr Hwd; simpl.
  - exists [], []. split; [reflexivity | constructor].
  - destruct (refresh_group_within a it i g Hlr Hwd) as (ev1 & g1 & -> & Hg).
    destruct (IH (S i) Hlr Hwd) as (ev2 & rest' & -> & Hrest).
    exists (ev1 ++ ev2), (g1 :: rest'). split; [reflexivity | constructor; assumption].
Qed.

(** X5: when the global step is an index of every table that is given, the
    refresh never raises, touches nothing but the parameter groups, and
    leaves every group with the learning rate [table[it] * lr_scale], and
    every group whose weight decay was positive with the weight decay
    [table[it]]; the other fields, and the weight decay of the groups that
    had none, are as before. *)
Theorem refresh_within_tables_writes_every_group a it i (s : @state W) :
  (forall tbl, lr_schedule_values a = Some tbl -> 0 <= it < Z.of_nat (length tbl)) ->
  (forall tbl, wd_schedule_values a = Some tbl -> 0 <= it < Z.of_nat (length tbl)) ->
  refresh_gate a i = true ->
  exists ev s',
    schedule (tensor := tensor) a it i s = (ev, Ret tt s')
    /\ world s' = world s
    /\ fetched s' = fetched s
    /\ Forall2 (refreshed a it) (param_groups s) (param_groups s').
Proof.
  intros Hlr Hwd Hg. unfold schedule. rewrite Hg.
  destruct (refresh_groups_within a it (param_groups s) 0%nat Hlr Hwd)
    as (ev & gs' & -> & H).
  exists ev, (with_groups gs' s). repeat split. exact H.
Qed.

(** X11: a negative global step is not rejected: for [-len <= it < 0] the
    refresh reads the learning-rate table from its end, entry [len + it],
    and writes it times [lr_scale] like any other entry; only below [-len]
    does the lookup raise IndexError. *)
Theorem negative_step_reads_table_from_end a tbl it i g :
  lr_schedule_values a = Some tbl ->
  it < 0 ->
  (- Z.of_nat (length tbl) <= it ->
   exists v, tbl !! Z.to_nat (Z.of_nat (length tbl) + it) = Some v
             /\ lr (refresh_group (tensor := tensor) a it i g).1.2
                = PrimFloat.mul v (lr_scale g))
  /\ (it < - Z.of_nat (length tbl) ->
      refresh_group (tensor := tensor) a it i g = ([], g, Some IndexError)).
Proof.
  intros Hlr Hneg. split.
  - intros Hin. destruct (getitem_from_end tbl it (conj Hin Hneg)) as (v & Hv & Hg).
    exists v. split; [exact Hv|]. unfold refresh_group. rewrite Hlr, Hg.
    destruct (wd_schedule_values a) as [tbw|]; simpl;
      try destruct (PrimFloat.ltb _ _); try destruct (getitem tbw it); reflexivity.
  - intros Hout. unfold refresh_group.
    rewrite Hlr, (getitem_before_start tbl it Hout). reflexivity.
Qed.

(** *** The reported learning rates and weight decay *)





(** *** Gradient computations, gradient resets and EMA updates *)

Lemma micro_step_grad_calls a i b (s : @state W) :
  raised (micro_step C a i b s) = None ->
  count_calls is_grad_call (fst (micro_step C a i b s))
  = if i / update_freq a <? num_training_steps_per_epoch a then 1%nat else 0%nat.
Proof.
  intros Hr. rewrite micro_step_count by (intros e; destruct e; simpl; congruence).
  destruct (micro_step_cases C a i b s)
    as [(ev & s1 & H1 & H2)|[(ev & e & s1 & H1 & H2)|(ev & it & b' & out & loss & s1 & H1)]].
  - rewrite H1. apply up_to_loss_none in H1.
    destruct (_ <? _) eqn:E; [lia | reflexivity].
  - rewrite H2 in Hr. discriminate.
  - rewrite H1. destruct (up_to_loss_processed C a i b s _ _ _ _ _ _ H1) as (_ & HN & _).
    destruct (isfinite (item C loss)) eqn:Hf.
    + rewrite accumulate_calls_grad. destruct (_ <? _) eqn:E; [reflexivity | lia].
    + rewrite (micro_step_nonfinite C a i b s _ _ _ _ _ _ H1 Hf) in Hr. discriminate.
Qed.

Lemma processed_succ a i :
  0 < update_freq a -> 0 <= i ->
  processed a (i + 1) - processed a i
  = if i / update_freq a <? num_training_steps_per_epoch a then 1 else 0.
Proof.
  intros HF Hi. unfold processed.
  set (F := update_freq a) in *. set (N := num_training_steps_per_epoch a).
  destruct (i / F <? N) eqn:E.
  - assert (i + 1 <= N * F) by (Z.div_mod_to_equations; nia). lia.
  - assert (N * F <= i) by (Z.div_mod_to_equations; nia). lia.
Qed.

Lemma train_loop_grad_calls a bs : forall i (s : @state W),
  0 < update_freq a -> 0 <= i ->
  raised (train_loop C a i bs s) = None ->
  count_calls is_grad_call (fst (train_loop C a i bs s))
  = Z.to_nat (processed a (i + Z.of_nat (length bs)) - processed a i).
Proof.
  induction bs as [|b rest IH]; intros i s HF Hi Hr.
  - simpl. rewrite Z.add_0_r, Z.sub_diag. reflexivity.
  - rewrite train_loop_cons in Hr |- *.
    pose proof (micro_step_grad_calls a i b (add_fetched 1 s)) as Hm.
    destruct (micro_step C a i b (add_fetched 1 s)) as [ev [[] s1|e s1]];
      [|discriminate].
    specialize (IH (i + 1) s1 HF ltac:(lia)).
    destruct (train_loop C a (i + 1) rest s1) as [ev2 r]. simpl in *.
    rewrite count_calls_app, (Hm eq_refl), (IH Hr).
    pose proof (processed_succ a i HF Hi) as Hs.
    assert (Hmono : processed a (i + 1) <= processed a (i + 1 + Z.of_nat (length rest)))
      by (unfold processed; lia).
    replace (i + Z.of_nat (S (length rest)))
      with (i + 1 + Z.of_nat (length rest)) by lia.
    destruct (i / update_freq a <? num_training_steps_per_epoch a); lia.
Qed.

(** X9: with F > 0, an epoch that returns has run exactly one gradient
    computation (backward pass, or loss-scaler call under mixed precision)
    for each processed micro-step, that is for each of the first
    [num_training_steps_per_epoch * F] batches of the loader, and none for the
    batches after them. *)
Theorem one_gradient_computation_per_processed_micro_step a bs (s : @state W) :
  0 < update_freq a ->
  raised (train_one_epoch C a bs s) = None ->
  count_calls is_grad_call (fst (train_one_epoch C a bs s))
  = Z.to_nat (Z.max 0 (Z.min (Z.of_nat (length bs))
                             (num_training_steps_per_epoch a * update_freq a))).
Proof.
  intros HF. rewrite train_one_epoch_unfold.
  pose proof (train_loop_grad_calls a bs 0 (with_world (zero_grad C) s) HF ltac:(lia)) as Hl.
  destruct (train_loop C a 0 bs (with_world (zero_grad C) s)) as [ev [[] s1|e s1]];
    simpl in *; [|discriminate].
  intros _. change (E_model_train :: E_zero_grad :: ev ++ [E_synchronize_between_processes])
    with ([E_model_train; E_zero_grad] ++ ev ++ [E_synchronize_between_processes]).
  rewrite !count_calls_app, (Hl eq_refl). unfold processed, count_calls. simpl. lia.
Qed.

Lemma micro_step_resets a i b (s : @state W) :
  count_calls is_zero_grad (fst (micro_step C a i b s))
  = opt_steps (fst (micro_step C a i b s))
  /\ count_calls is_ema_update (fst (micro_step C a i b s))
     = if model_ema a then opt_steps (fst (micro_step C a i b s)) else 0%nat.
Proof.
  change (@opt_steps tensor) with (count_calls (@is_opt_step tensor)).
  rewrite !micro_step_count by (intros e; destruct e; simpl; congruence).
  destruct (up_to_loss C a i b s) as [ev [[[[[it b'] out] loss]|] s1|e s1]];
    try (destruct (model_ema a); split; reflexivity).
  destruct (isfinite _); [|destruct (model_ema a); split; reflexivity].
  split; [apply accumulate_calls_zero_grad | apply accumulate_calls_ema].
Qed.

Lemma train_loop_resets a bs : forall i (s : @state W),
  count_calls is_zero_grad (fst (train_loop C a i bs s))
  = opt_steps (fst (train_loop C a i bs s))
  /\ count_calls is_ema_update (fst (train_loop C a i bs s))
     = if model_ema a then opt_steps (fst (train_loop C a i bs s)) else 0%nat.
Proof.
  induction bs as [|b rest IH]; intros i s.
  - simpl. destruct (model_ema a); split; reflexivity.
  - rewrite train_loop_cons.
    destruct (micro_step_resets a i b (add_fetched 1 s)) as [Hz He].
    destruct (micro_step C a i b (add_fetched 1 s)) as [ev [[] s1|e s1]];
      [|split; assumption].
    destruct (IH (i + 1) s1) as [Hz' He'].
    destruct (train_loop C a (i + 1) rest s1) as [ev2 r]. simpl in *.
    rewrite !count_calls_app, opt_steps_app, Hz, Hz', He, He'.
    destruct (model_ema a); split; reflexivity.
Qed.

(** X10: in every epoch, returning or raising, the gradients are reset once
    at the start and once after each optimizer step and at no other time,
    and the EMA model is updated once after each optimizer step when there
    is an EMA model, never otherwise. *)
Theorem resets_and_ema_updates_follow_optimizer_steps a bs (s : @state W) :
  let calls := fst (train_one_epoch C a bs s) in
  count_calls is_zero_grad calls = S (opt_steps calls)
  /\ count_calls is_ema_update calls
     = if model_ema a then opt_steps calls else 0%nat.
Proof.
  intros calls. subst calls. rewrite train_one_epoch_unfold.
  destruct (train_loop_resets a bs 0 (with_world (zero_grad C) s)) as [Hz He].
  destruct (train_loop C a 0 bs (with_world (zero_grad C) s)) as [ev [[] s1|e s1]];
    simpl in *.
  - change (E_model_train :: E_zero_grad :: ev ++ [E_synchronize_between_processes])
      with ([E_model_train; E_zero_grad] ++ ev ++ [E_synchronize_between_processes]).
    rewrite !count_calls_app, !opt_steps_app, Hz, He.
    unfold count_calls, opt_steps. simpl. destruct (model_ema a); split; lia.
  - change (E_model_train :: E_zero_grad :: ev)
      with ([E_model_train; E_zero_grad] ++ ev).
    rewrite !count_calls_app, !opt_steps_app, Hz, He.
    unfold count_calls, opt_steps. simpl. destruct (model_ema a); split; lia.
Qed.

(** *** The batch accuracy on wandb *)

Lemma record_wandb_class_acc a it b out loss_value grad_norm (s : @state W) :
  count_calls is_wandb_class_acc (fst (record C a it b out loss_value grad_norm s))
  = if wandb_logger a && negb (mixup a) && tensor_bool C (batch_acc C out b)
    then 1%nat else 0%nat.
Proof.
  unfold record, bind, emit, emit_all, get_groups, ret. cbv zeta.
  destruct (lr_bounds (param_groups s)) as [min_lr max_lr].
  destruct (mixup a); [|destruct (tensor_bool C (batch_acc C out b)) eqn:Et];
    destruct (use_amp a), (log_writer a), (wandb_logger a); simpl; rewrite ?Et;
    reflexivity.
Qed.

(** X23: in a micro-step that reaches a finite loss, the batch accuracy is
    sent to wandb when there is a wandb logger, no mixup, and the accuracy
    tensor is truthy; it is left out not only under mixup, where it is None,
    but also when the accuracy of the batch is exactly zero. *)
Theorem wandb_class_acc_only_when_truthy a i b (s : @state W) ev it b' out loss s1 :
  up_to_loss C a i b s = (ev, Ret (Some (it, b', out, loss)) s1) ->
  isfinite (item C loss) = true ->
  count_calls is_wandb_class_acc (fst (micro_step C a i b s))
  = if wandb_logger a && negb (mixup a) && tensor_bool C (batch_acc C out b')
    then 1%nat else 0%nat.
Proof.
  intros Hup Hf.
  destruct (micro_step_finite C a i b s _ _ _ _ _ _ Hup Hf) as (gn & s' & -> & _).
  simpl. rewrite !count_calls_app, record_wandb_class_acc.
  rewrite (count_calls_none is_wandb_class_acc (fun e => is_refresh e || is_forward e) ev).
  - rewrite (count_calls_none is_wandb_class_acc is_optim_call);
      [reflexivity | intros e; destruct e; simpl; congruence
       | apply accumulate_calls_optim].
  - intros e. destruct e; simpl; congruence.
  - pose proof (up_to_loss_calls C a i b s) as Hc. rewrite Hup in Hc. exact Hc.
Qed.

(** *** Calls and configuration *)



Lemma calls_all_one {A} (P : event -> Prop) (m : M A) e :
  (forall s, fst (m s) = [e]) -> P e -> calls_all P m.
Proof. intros H He s. rewrite H. repeat constructor. exact He. Qed.










End Facts.

(** *** On the small instance *)

Section OnDemo.

Import Demo FloatLit.

Local Abbreviation table := [f1; half; quarter; f0].

Lemma zero_update_freq_raises_on_first_batch_witness :
  update_freq (demo_args_of 0 (Some table) None false) = 0
  /\ raised (train_one_epoch demo (demo_args_of 0 (Some table) None false)
                             [half; half] demo_state)
     = Some ZeroDivisionError.
Proof.
  split; [reflexivity|].
  rewrite (zero_update_freq_raises_on_first_batch demo
             (demo_args_of 0 (Some table) None false) half [half] demo_state eq_refl).
  reflexivity.
Defined.

Lemma refresh_again_changes_nothing_witness :
  refresh_gate demo_args 0 = true
  /\ exists ev s1,
       schedule (tensor := float) demo_args 0 0 demo_state = (ev, Ret tt s1)
       /\ exists ev', schedule (tensor := float) demo_args 0 1 s1 = (ev', Ret tt s1).
Proof.
  split; [reflexivity|]. do 2 eexists. split; [reflexivity|].
  eapply (refresh_again_changes_nothing (W := nat) (tensor := float) demo_args 0 0 1
                                         demo_state);
    reflexivity.
Defined.

Lemma refresh_within_tables_writes_every_group_witness :
  (forall tbl, lr_schedule_values demo_args = Some tbl -> 0 <= 1 < Z.of_nat (length tbl))
  /\ (forall tbl, wd_schedule_values demo_args = Some tbl -> 0 <= 1 < Z.of_nat (length tbl))
  /\ refresh_gate demo_args 1 = true
  /\ exists ev s', schedule (tensor := float) demo_args 1 1 demo_state = (ev, Ret tt s')
                   /\ world s' = world demo_state.
Proof.
  assert (Hlr : forall tbl, lr_schedule_values demo_args = Some tbl ->
                            0 <= 1 < Z.of_nat (length tbl)).
  { intros tbl H. injection H as <-. simpl. lia. }
  assert (Hwd : forall tbl, wd_schedule_values demo_args = Some tbl ->
                            0 <= 1 < Z.of_nat (length tbl)).
  { intros tbl H. discriminate H. }
  split; [exact Hlr|]. split; [exact Hwd|]. split; [reflexivity|].
  destruct (refresh_within_tables_writes_every_group (W := nat) (tensor := float)
              demo_args 1 1 demo_state Hlr Hwd eq_refl) as (ev & s' & H1 & H2 & _).
  exists ev, s'. split; assumption.
Defined.

Lemma epoch_without_tables_keeps_groups_witness :
  lr_schedule_values (demo_args_of 2 None None false) = None
  /\ wd_schedule_values (demo_args_of 2 None None false) = None
  /\ param_groups (final_state (train_one_epoch demo (demo_args_of 2 None None false)
                                                [half; half; f1] demo_state))
     = [demo_group].
Proof.
  split; [reflexivity|]. split; [reflexivity|].
  apply (epoch_without_tables_keeps_groups demo (demo_args_of 2 None None false)
                                           [half; half; f1] demo_state);
    reflexivity.
Defined.

Lemma one_gradient_computation_per_processed_micro_step_witness :
  0 < update_freq demo_args
  /\ count_calls is_grad_call
       (fst (train_one_epoch demo demo_args
                             [half; half; f1; half; half; f1; half; half; f1] demo_state))
     = 6%nat.
Proof.
  split; [reflexivity|].
  rewrite (one_gradient_computation_per_processed_micro_step demo demo_args);
    reflexivity.
Defined.

Lemma negative_step_reads_table_from_end_witness :
  lr_schedule_values demo_args = Some table
  /\ -1 < 0
  /\ exists v, table !! 3%nat = Some v
               /\ lr (refresh_group (tensor := float) demo_args (-1) 0 demo_group).1.2
                  = PrimFloat.mul v (lr_scale demo_group).
Proof.
  split; [reflexivity|]. split; [reflexivity|].
  destruct (negative_step_reads_table_from_end (tensor := float) demo_args table (-1)
              0%nat demo_group eq_refl eq_refl) as [H _].
  destruct H as (v & Hv & Hl); [simpl; lia|].
  exists v. split; [exact Hv | exact Hl].
Defined.

Lemma wandb_class_acc_only_when_truthy_witness :
  isfinite (item demo half) = true
  /\ count_calls is_wandb_class_acc
       (fst (micro_step demo (demo_args_of 2 (Some table) None true) 0 half demo_state))
     = 1%nat.
Proof.
  split; [reflexivity|].
  erewrite (wandb_class_acc_only_when_truthy demo (demo_args_of 2 (Some table) None true)
                                             0 half demo_state);
    reflexivity.
Defined.

End OnDemo.

End TrainEpoch.

(** ** evaluate: artifacts and meters of a whole run *)

Module EvaluateRun.

Import Evaluate EvaluateFacts.

Section Facts.

Context {imgs row box : Type}.
Variable C : @collab imgs row.

Implicit Types (m : gmap string (list (float * Z))).

(** *** Annotated images *)

Lemma annotate_length (ts ps : list Z) (pths : list string) : forall (boxes : list box),
  length (annotate ts ps pths boxes)
  = Nat.min (Nat.min (length ts) (length ps)) (Nat.min (length pths) (length boxes)).
Proof.
  revert ps pths. induction ts as [|t ts IH]; intros [|p ps] [|pth pths] [|bx boxes];
    simpl; try reflexivity; try lia.
  rewrite IH. reflexivity.
Qed.

Lemma annotate_lookup (ts ps : list Z) (pths : list string) :
  forall (boxes : list box) i art,
    annotate ts ps pths boxes !! i = Some art ->
    ts !! i = Some (art_target art)
    /\ ps !! i = Some (art_predict art)
    /\ pths !! i = Some (art_source art)
    /\ art_dir art = (if art_predict art =? 0 then "neg" else "pos")
    /\ art_match art = (art_predict art =? art_target art).
Proof.
  revert ps pths. induction ts as [|t ts IH]; intros [|p ps] [|pth pths] [|bx boxes] i art;
    simpl; try discriminate.
  destruct i as [|i]; simpl.
  - intros H. injection H as <-. simpl. repeat split.
  - apply IH.
Qed.

Lemma eval_batch_written class_to_idx (s : state) (b : @batch imgs box) :
  written (eval_batch C class_to_idx s b) = written s ++ batch_artifacts C b
  /\ cnt (eval_batch C class_to_idx s b)
     = cnt s + Z.of_nat (length (batch_artifacts C b)).
Proof.
  unfold eval_batch. destruct (accuracy C _ _) as [a1 a5]. split; reflexivity.
Qed.

Lemma eval_loop_written class_to_idx (bs : list (@batch imgs box)) : forall s : state,
  written (fold_left (eval_batch C class_to_idx) bs s)
  = written s ++ flat_map (batch_artifacts C) bs
  /\ cnt (fold_left (eval_batch C class_to_idx) bs s)
     = cnt s + Z.of_nat (length (flat_map (batch_artifacts C) bs)).
Proof.
  induction bs as [|b rest IH]; intros s; simpl.
  - rewrite app_nil_r. split; [reflexivity | lia].
  - destruct (IH (eval_batch C class_to_idx s b)) as [-> ->].
    destruct (eval_batch_written class_to_idx s b) as [-> ->].
    rewrite <- app_assoc, length_app. split; [reflexivity | lia].
Qed.

(** X12: the counter of written images is the number of annotated images
    of the run: the images of the batches in loader order, as many for a
    batch as the shortest of its labels, predictions, paths and boxes. *)
Theorem written_images_are_counted class_to_idx (bs : list (@batch imgs box)) :
  cnt (evaluate C class_to_idx bs)
  = Z.of_nat (length (written (evaluate C class_to_idx bs)))
  /\ written (evaluate C class_to_idx bs) = flat_map (batch_artifacts C) bs
  /\ Forall (fun b =>
               length (batch_artifacts C b)
               = Nat.min (Nat.min (length (target b)) (length (model C (images b))))
                         (Nat.min (length (path b)) (length (bbox b)))) bs.
Proof.
  unfold evaluate.
  destruct (eval_loop_written class_to_idx bs {| meters := ∅; written := []; cnt := 0 |})
    as [-> ->]. simpl. split; [reflexivity|]. split; [reflexivity|].
  apply Forall_forall. intros b _. unfold batch_artifacts.
  rewrite annotate_length, length_map. reflexivity.
Qed.

(** X13: every annotated image of a run is filed by its predicted class
    alone, under "neg" when the prediction is class 0 and under "pos" for any
    other prediction, whatever its label, and carries the thick box exactly
    when the prediction equals the label. *)
Theorem images_are_filed_by_prediction class_to_idx (bs : list (@batch imgs box)) :
  Forall (fun art =>
            art_dir art = (if art_predict art =? 0 then "neg" else "pos")
            /\ (art_match art = true <-> art_predict art = art_target art))
         (written (evaluate C class_to_idx bs)).
Proof.
  unfold evaluate.
  destruct (eval_loop_written class_to_idx bs {| meters := ∅; written := []; cnt := 0 |})
    as [-> _]. simpl.
  apply Forall_forall. intros art Hin.
  apply list_elem_of_In, in_flat_map in Hin. destruct Hin as (b & _ & Hin).
  apply (proj2 (list_elem_of_In _ _)), list_elem_of_lookup in Hin.
  destruct Hin as [i Hi].
  destruct (annotate_lookup _ _ _ _ _ _ Hi) as (_ & _ & _ & Hd & Hm).
  split; [exact Hd|]. rewrite Hm. apply Z.eqb_eq.
Qed.

(** *** The overall meters *)

Lemma class_update_overall output tgt m c k :
  (forall name, k <> ("acc1_" ++ name)%string /\ k <> ("acc5_" ++ name)%string) ->
  class_update C output tgt m c !! k = m !! k.
Proof.
  intros Hk. destruct c as [name id]. unfold class_update.
  destruct (0 <? _); [|reflexivity].
  destruct (accuracy C _ _) as [a1 a5].
  destruct (Hk name) as [H1 H5].
  rewrite !meter_update_other by (intros H; symmetry in H; contradiction). reflexivity.
Qed.

Lemma class_loop_overall output tgt class_to_idx k : forall m,
  (forall name, k <> ("acc1_" ++ name)%string /\ k <> ("acc5_" ++ name)%string) ->
  fold_left (class_update C output tgt) class_to_idx m !! k = m !! k.
Proof.
  induction class_to_idx as [|c rest IH]; intros m Hk; cbn [fold_left]; [reflexivity|].
  rewrite IH by exact Hk. apply class_update_overall, Hk.
Qed.

Lemma overall_names :
  forall k, k = "loss" \/ k = "acc1" \/ k = "acc5" ->
            forall name, k <> ("acc1_" ++ name)%string /\ k <> ("acc5_" ++ name)%string.
Proof. intros k [-> | [-> | ->]] name; split; simpl; discriminate. Qed.

Lemma eval_batch_overall class_to_idx (s : state) (b : @batch imgs box) :
  let output := model C (images b) in
  let acc := accuracy C output (target b) in
  let n := batch_size C (images b) in
  meters (eval_batch C class_to_idx s b) !! "loss"
    = Some (default [] (meters s !! "loss") ++ [(criterion C output (target b), 1)])
  /\ meters (eval_batch C class_to_idx s b) !! "acc1"
     = Some (default [] (meters s !! "acc1") ++ [(fst acc, n)])
  /\ meters (eval_batch C class_to_idx s b) !! "acc5"
     = Some (default [] (meters s !! "acc5") ++ [(snd acc, n)]).
Proof.
  intros output acc n. subst output acc n. unfold eval_batch.
  destruct (accuracy C (model C (images b)) (target b)) as [a1 a5]. cbn [meters fst snd].
  rewrite !class_loop_overall by (apply overall_names; auto).
  split; [|split].
  - rewrite !meter_update_other by discriminate. apply meter_update_same.
  - rewrite meter_update_other by discriminate. rewrite meter_update_same.
    rewrite meter_update_other by discriminate. reflexivity.
  - rewrite meter_update_same. rewrite !meter_update_other by discriminate. reflexivity.
Qed.

Lemma eval_loop_overall class_to_idx (bs : list (@batch imgs box)) : forall s : state,
  default [] (meters (fold_left (eval_batch C class_to_idx) bs s) !! "loss")
    = default [] (meters s !! "loss") ++ loss_samples C bs
  /\ default [] (meters (fold_left (eval_batch C class_to_idx) bs s) !! "acc1")
     = default [] (meters s !! "acc1") ++ acc1_samples C bs
  /\ default [] (meters (fold_left (eval_batch C class_to_idx) bs s) !! "acc5")
     = default [] (meters s !! "acc5") ++ acc5_samples C bs.
Proof.
  induction bs as [|b rest IH]; intros s; cbn [fold_left].
  - unfold loss_samples, acc1_samples, acc5_samples. simpl. rewrite !app_nil_r. auto.
  - destruct (IH (eval_batch C class_to_idx s b)) as (-> & -> & ->).
    destruct (eval_batch_overall class_to_idx s b) as (-> & -> & ->).
    unfold loss_samples, acc1_samples, acc5_samples. simpl.
    rewrite <- !app_assoc. auto.
Qed.

Lemma eval_loop_overall_some class_to_idx (bs : list (@batch imgs box)) : forall s : state,
  bs <> [] ->
  is_Some (meters (fold_left (eval_batch C class_to_idx) bs s) !! "loss")
  /\ is_Some (meters (fold_left (eval_batch C class_to_idx) bs s) !! "acc1")
  /\ is_Some (meters (fold_left (eval_batch C class_to_idx) bs s) !! "acc5").
Proof.
  induction bs as [|b rest IH]; intros s Hne; [contradiction|]. cbn [fold_left].
  destruct rest as [|b' rest'].
  - cbn [fold_left]. destruct (eval_batch_overall class_to_idx s b) as (-> & -> & ->).
    repeat split; eexists; reflexivity.
  - apply IH. discriminate.
Qed.

(** X14: the run gives the loss meter one sample of weight 1 per batch and
    the overall top-1 and top-5 meters one sample per batch weighted by the
    batch size, in loader order, and the per-class loop never writes to
    these three meters, whatever the class names; without a batch the three
    keys are absent from the result. *)
Theorem overall_meters_have_one_sample_per_batch class_to_idx (bs : list (@batch imgs box)) :
  let m := meters (evaluate C class_to_idx bs) in
  m !! "loss" = (if bs is [] then None else Some (loss_samples C bs))
  /\ m !! "acc1" = (if bs is [] then None else Some (acc1_samples C bs))
  /\ m !! "acc5" = (if bs is [] then None else Some (acc5_samples C bs)).
Proof.
  intros m. subst m. unfold evaluate.
  destruct bs as [|b rest]; [repeat split; apply lookup_empty|].
  set (s0 := {| meters := ∅; written := []; cnt := 0 |}).
  destruct (eval_loop_overall class_to_idx (b :: rest) s0) as (H1 & H2 & H3).
  destruct (eval_loop_overall_some class_to_idx (b :: rest) s0 ltac:(discriminate))
    as ([x1 E1] & [x2 E2] & [x3 E3]).
  rewrite E1, E2, E3 in *. simpl in H1, H2, H3. subst. repeat split.
Qed.

(** *** The meters of a class *)

Lemma class_loop_other_names output tgt name class_to_idx : forall m,
  (forall c, In c class_to_idx -> fst c <> name) ->
  fold_left (class_update C output tgt) class_to_idx m !! ("acc1_" ++ name)%string
    = m !! ("acc1_" ++ name)%string
  /\ fold_left (class_update C output tgt) class_to_idx m !! ("acc5_" ++ name)%string
     = m !! ("acc5_" ++ name)%string.
Proof.
  induction class_to_idx as [|[n id] rest IH]; intros m Hne; cbn [fold_left];
    [split; reflexivity|].
  destruct (IH (class_update C output tgt m (n, id))) as [-> ->].
  { intros c Hc. apply Hne. right. exact Hc. }
  apply class_update_other_name. apply (Hne (n, id)). left. reflexivity.
Qed.

(** X15: when the class names are distinct, a batch with samples of the
    class (name, id) adds to the meters acc1_name and acc5_name exactly one
    sample each: the accuracy over the rows of the batch labelled [id],
    weighted by their number, which is at least one; the other classes and
    the overall meters leave these two meters alone. *)
Theorem batch_adds_one_sample_per_present_class
        class_to_idx (s : state) (b : @batch imgs box) name class_id :
  NoDup (map fst class_to_idx) ->
  In (name, class_id) class_to_idx ->
  In class_id (target b) ->
  let mask := map (fun t => t =? class_id) (target b) in
  let acc := accuracy C (masked_select (model C (images b)) mask)
                        (masked_select (target b) mask) in
  let n := Z.of_nat (length (List.filter (fun t => t =? class_id) (target b))) in
  1 <= n
  /\ meters (eval_batch C class_to_idx s b) !! ("acc1_" ++ name)%string
     = Some (default [] (meters s !! ("acc1_" ++ name)%string) ++ [(fst acc, n)])
  /\ meters (eval_batch C class_to_idx s b) !! ("acc5_" ++ name)%string
     = Some (default [] (meters s !! ("acc5_" ++ name)%string) ++ [(snd acc, n)]).
Proof.
  intros Hnd Hin Hpresent mask acc n. subst mask acc n.
  pose proof (class_count_pos (target b) class_id Hpresent) as Hpos.
  rewrite masked_select_filter in Hpos. split; [lia|].
  destruct (in_split _ _ Hin) as (pre & post & Hsplit).
  assert (Hpre : forall c, In c pre -> fst c <> name).
  { intros c Hc Heq. rewrite Hsplit, map_app in Hnd. simpl in Hnd.
    apply NoDup_app in Hnd as (_ & Hdisj & _).
    apply (Hdisj name).
    - apply list_elem_of_In, in_map_iff. exists c. split; assumption.
    - left. }
  assert (Hpost : forall c, In c post -> fst c <> name).
  { intros c Hc Heq. rewrite Hsplit, map_app in Hnd. simpl in Hnd.
    apply NoDup_app in Hnd as (_ & _ & Hnd). apply NoDup_cons in Hnd as [Hnot _].
    apply Hnot, list_elem_of_In, in_map_iff. exists c. split; assumption. }
  unfold eval_batch.
  destruct (accuracy C (model C (images b)) (target b)) as [a1 a5]. cbn [meters].
  rewrite Hsplit, fold_left_app. cbn [fold_left].
  set (m0 := meter_update "acc5" a5 _ _).
  destruct (class_loop_other_names (model C (images b)) (target b) name post
              (class_update C (model C (images b)) (target b)
                 (fold_left (class_update C (model C (images b)) (target b)) pre m0)
                 (name, class_id)) Hpost) as [-> ->].
  destruct (class_update_present C (model C (images b)) (target b)
              (fold_left (class_update C (model C (images b)) (target b)) pre m0)
              name class_id Hpresent) as [H1 H5].
  cbv zeta in H1, H5.
  rewrite <- (masked_select_filter (fun t => t =? class_id) (target b)).
  rewrite H1, H5.
  destruct (class_loop_other_names (model C (images b)) (target b) name pre m0 Hpre)
    as [-> ->].
  subst m0. rewrite !meter_update_other by (simpl; discriminate).
  split; reflexivity.
Qed.

End Facts.

Lemma batch_adds_one_sample_per_present_class_witness :
  NoDup (map fst [("neg", 0); ("pos", 1)])
  /\ In ("pos", 1) [("neg", 0); ("pos", 1)]
  /\ In 1 (target Demo.pos_batch)
  /\ meters (eval_batch Demo.eval_demo [("neg", 0); ("pos", 1)] Demo.empty_eval
                        Demo.pos_batch) !! "acc1_pos"
     = Some [(Demo.percent 1 2, 2)].
Proof.
  assert (Hnd : NoDup (map fst [("neg", 0); ("pos", 1)])).
  { simpl. apply NoDup_cons_2; [|apply NoDup_singleton].
    intros H. apply list_elem_of_singleton in H. discriminate H. }
  assert (Hin : In ("pos", 1) [("neg", 0); ("pos", 1)]) by (right; left; reflexivity).
  assert (Hp : In 1 (target Demo.pos_batch)) by (left; reflexivity).
  split; [exact Hnd|]. split; [exact Hin|]. split; [exact Hp|].
  destruct (batch_adds_one_sample_per_present_class Demo.eval_demo
              [("neg", 0); ("pos", 1)] Demo.empty_eval Demo.pos_batch "pos" 1
              Hnd Hin Hp) as (_ & H1 & _).
  exact H1.
Defined.

End EvaluateRun.

(** ** prediction: labels, records and reports *)

Module PredictionRun.

Import Prediction PredictionFacts.

(** *** Labels *)

Lemma split_no_sep sep s :
  ~ In sep (list_ascii_of_string s) -> split sep s = [s].
Proof.
  induction s as [|c s IH]; simpl; intros Hn; [reflexivity|].
  destruct (Ascii.eqb c sep) eqn:E.
  - exfalso. apply Hn. left. apply Ascii.eqb_eq, E.
  - rewrite IH by (intros H; apply Hn; right; exact H). reflexivity.
Qed.

Lemma split_at_first_sep sep s rest :
  ~ In sep (list_ascii_of_string s) ->
  split sep (s ++ String sep rest) = s :: split sep rest.
Proof.
  induction s as [|c s IH]; simpl; intros Hn.
  - rewrite Ascii.eqb_refl. reflexivity.
  - destruct (Ascii.eqb c sep) eqn:E.
    + exfalso. apply Hn. left. apply Ascii.eqb_eq, E.
    + rewrite IH by (intros H; apply Hn; right; exact H). reflexivity.
Qed.

(** X16: the label is read off the part of the file name before the first
    underscore: what follows that underscore never changes the label, nor
    whether the name is rejected. *)
Theorem label_depends_on_first_piece_only (s rest : string) :
  ~ In "_"%char (list_ascii_of_string s) ->
  parse_target (s ++ String "_" rest) = parse_target s.
Proof.
  intros Hn. unfold parse_target.
  rewrite (split_at_first_sep "_" s rest Hn), (split_no_sep "_" s Hn).
  reflexivity.
Qed.

(** On names made of the 256 code points of [ascii]: a name gets a label
    in two cases, when it starts with a character other than "t" and "_", and
    the label is the sentinel -1, or when it starts with "t" followed by one
    of "0" .. "9", and the label is that digit. *)
Theorem label_is_sentinel_or_digit (name : string) (v : Z) :
  parse_target name = Ok v
  <-> (exists c rest, name = String c rest /\ c <> "t"%char /\ c <> "_"%char /\ v = -1)
      \/ (exists d rest, name = String "t" (String d rest)
                         /\ 48 <= Z.of_N (N_of_ascii d) <= 57
                         /\ v = Z.of_N (N_of_ascii d) - 48).
Proof.
  split.
  - destruct name as [|c rest]; [discriminate|].
    destruct (Ascii.eqb c "_") eqn:Es.
    { apply Ascii.eqb_eq in Es. subst c. discriminate. }
    destruct (Ascii.eqb c "t") eqn:Et.
    + apply Ascii.eqb_eq in Et. subst c. intros H. right.
      destruct rest as [|d rest']; [discriminate H|].
      destruct (Ascii.eqb d "_") eqn:Ed.
      { apply Ascii.eqb_eq in Ed. subst d. discriminate H. }
      pose proof (parse_target_t_digit d rest') as Hd.
      destruct ((48 <=? Z.of_N (N_of_ascii d)) && (Z.of_N (N_of_ascii d) <=? 57)) eqn:Er.
      * exists d, rest'. rewrite Hd in H by lia. injection H as <-.
        repeat split; lia.
      * exfalso. unfold parse_target in H.
        destruct (split_head "_" d rest' Ed) as (seg & segs & Hs).
        change (split "_" (String "t" (String d rest')))
          with (match split "_" (String d rest') with
                | seg :: segs => String "t" seg :: segs
                | [] => [String "t" EmptyString]
                end) in H.
        rewrite Hs in H.
        change (getitem (String "t" (String d seg) :: segs) 0)
          with (Ok (String "t" (String d seg))) in H.
        cbv beta iota in H. rewrite char_at_0 in H. cbv beta iota in H.
        change (Ascii.eqb "t" "t") with true in H. cbv beta iota in H.
        rewrite char_at_1 in H. unfold int_of_char in H. rewrite Er in H.
        discriminate H.
    + intros H. left. exists c, rest.
      rewrite parse_target_other_initial in H by assumption. injection H as <-.
      repeat split; apply Ascii.eqb_neq; assumption.
  - intros [(c & rest & -> & Ht & Hs & ->)|(d & rest & -> & Hd & ->)].
    + apply parse_target_other_initial; apply Ascii.eqb_neq; assumption.
    + apply parse_target_t_digit, Hd.
Qed.

(** *** The inference loop *)

Section Inference.

Variable predict : datum -> Z * float.

(** X18: the inference loop returns one record per datum, in the order of
    the data list, each with the datum's path, the model's prediction and
    confidence for it and the label of its file name; and it raises exactly
    when some file name has no label, with the exception of the first such
    name in the list, whatever comes after it. *)
Theorem infer_keeps_order_or_raises_at_first_bad_name (data_list : list datum) :
  (forall rs, infer predict data_list = Ok rs -> Forall2 (record_of predict) data_list rs)
  /\ (forall e, infer predict data_list = Err e ->
        exists pre d post,
          data_list = pre ++ d :: post
          /\ Forall (fun d' => exists t, parse_target (snd d') = Ok t) pre
          /\ parse_target (snd d) = Err e)
  /\ (Forall (fun d => exists t, parse_target (snd d) = Ok t) data_list ->
      exists rs, infer predict data_list = Ok rs).
Proof.
  induction data_list as [|d rest (IHok & IHerr & IHall)]; simpl.
  - repeat split.
    + intros rs H. injection H as <-. constructor.
    + discriminate.
    + eauto.
  - destruct (parse_target (snd d)) as [t|e0] eqn:Hp.
    + destruct (predict d) as [p c] eqn:Hpred.
      destruct (infer predict rest) as [rs0|e1]; repeat split.
      * intros rs H. injection H as <-. constructor; [|apply IHok; reflexivity].
        unfold record_of. simpl. rewrite Hpred. auto.
      * discriminate.
      * eauto.
      * discriminate.
      * intros e H. injection H as <-.
        destruct (IHerr e1 eq_refl) as (pre & d' & post & -> & Hpre & Hd').
        exists (d :: pre), d', post. repeat split; [|exact Hd'].
        constructor; [eauto | exact Hpre].
      * intros Hall. inversion Hall as [|? ? _ Hrest]; subst.
        destruct (IHall Hrest) as [rs H]. discriminate H.
    + repeat split.
      * discriminate.
      * intros e H. injection H as <-. exists [], d, rest. repeat split; [constructor | exact Hp].
      * intros Hall. inversion Hall as [|? ? [t Ht] _]; subst. congruence.
Qed.

End Inference.

(** *** Copies and reports *)

Lemma partition_lengths (result : list record) :
  (length (positives result) + length (negatives result))%nat
  = length (List.filter binary result).
Proof.
  unfold positives, negatives. rewrite !length_map.
  induction result as [|x rest IH]; simpl; [reflexivity|].
  unfold binary at 1.
  destruct (pred x =? 1) eqn:E1, (pred x =? 0) eqn:E0; simpl; lia.
Qed.



Lemma common_plots_by_prediction tn tp n p :
  Forall by_prediction_plot (common_plots tn tp [] [] n p [] []).
Proof.
  unfold common_plots.
  destruct (0 <? length tn)%nat, (0 <? length tp)%nat; simpl;
    repeat (constructor; [simpl; auto|]); constructor.
Qed.

Lemma pred_eval_by_prediction result rep :
  pred_eval result = Ok rep -> branch rep = ByPrediction ->
  conf_TN rep = confs is_neg result /\ conf_TP rep = confs is_pos result
  /\ conf_FN rep = [] /\ conf_FP rep = []
  /\ itn rep = indices_from 0 is_neg result /\ itp rep = indices_from 0 is_pos result
  /\ ifn rep = [] /\ ifp rep = []
  /\ plots rep
     = Hist [confs is_neg result; confs is_pos result] ["Negative"; "Positive"] 50
            "hist_PN.png"
       :: common_plots (confs is_neg result) (confs is_pos result) [] []
                       (indices_from 0 is_neg result) (indices_from 0 is_pos result)
                       [] [].
Proof.
  unfold pred_eval, sum_targets.
  destruct result as [|x rest]; [discriminate|].
  destruct (_ <? 0); intros H; injection H as <-; [|discriminate].
  intros _. repeat split.
Qed.

(** X20: a report that goes by the prediction alone has no false-negative
    and no false-positive entry and draws no plot for them; its two buckets
    hold the positions of the records predicted 0 and of the records
    predicted 1, with one confidence per position, and together as many
    entries as there are records predicted 0 or 1. *)
Theorem report_by_prediction_has_two_buckets result rep :
  pred_eval result = Ok rep ->
  branch rep = ByPrediction ->
  conf_FN rep = [] /\ conf_FP rep = [] /\ ifn rep = [] /\ ifp rep = []
  /\ (forall i x, result !! i = Some x ->
                  (In i (itn rep) <-> pred x = 0) /\ (In i (itp rep) <-> pred x = 1))
  /\ length (conf_TN rep) = length (itn rep)
  /\ length (conf_TP rep) = length (itp rep)
  /\ bucket_total rep = length (List.filter binary result)
  /\ Forall by_prediction_plot (plots rep).
Proof.
  intros Hrep Hbranch.
  destruct (pred_eval_by_prediction result rep Hrep Hbranch)
    as (Htn & Htp & Hfn & Hfp & Hitn & Hitp & Hifn & Hifp & Hplots).
  refine (conj Hfn (conj Hfp (conj Hifn (conj Hifp _)))).
  refine (conj _ (conj _ (conj _ (conj _ _)))).
  - intros i x Hx. rewrite Hitn, Hitp.
    rewrite (indices_from_0 is_neg result i x Hx), (indices_from_0 is_pos result i x Hx).
    unfold is_neg, is_pos. rewrite !Z.eqb_eq. tauto.
  - rewrite Htn, Hitn, length_confs, length_indices_from. reflexivity.
  - rewrite Htp, Hitp, length_confs, length_indices_from. reflexivity.
  - unfold bucket_total. rewrite Htn, Htp, Hfn, Hfp, !length_confs. simpl length.
    pose proof (partition_lengths result) as Hp.
    unfold positives, negatives in Hp. rewrite !length_map in Hp.
    unfold is_neg, is_pos. lia.
  - rewrite Hplots. constructor; [simpl; auto|]. apply common_plots_by_prediction.
Qed.

Lemma indices_from_sorted p result : forall start,
  StronglySorted lt (indices_from start p result)
  /\ Forall (fun i => (start <= i < start + length result)%nat)
            (indices_from start p result).
Proof.
  induction result as [|x rest IH]; intros start; simpl; [split; constructor|].
  destruct (IH (S start)) as [Hs Hb].
  assert (Hb' : Forall (fun i => (start <= i < start + S (length rest))%nat)
                       (indices_from (S start) p rest)).
  { eapply Forall_impl; [exact Hb|]. simpl. intros i Hi. lia. }
  destruct (p x); [|split; assumption].
  split.
  - constructor; [exact Hs|]. eapply Forall_impl; [exact Hb|]. simpl. intros i Hi. lia.
  - constructor; [lia | exact Hb'].
Qed.

(** X21: in every report the positions listed for a bucket are positions of
    records of the result, below its length, and are listed in increasing
    order without repetition, so that the scatter plots show the records in
    the order of the data list. *)
Theorem bucket_positions_are_increasing_and_in_range result rep :
  pred_eval result = Ok rep ->
  Forall (fun positions =>
            StronglySorted lt positions
            /\ Forall (fun i => (i < length result)%nat) positions)
         [itn rep; itp rep; ifn rep; ifp rep].
Proof.
  assert (H : forall p, StronglySorted lt (indices_from 0 p result)
                        /\ Forall (fun i => (i < length result)%nat)
                                  (indices_from 0 p result)).
  { intros p. destruct (indices_from_sorted p result 0%nat) as [Hs Hb].
    split; [exact Hs|]. eapply Forall_impl; [exact Hb|]. simpl. intros i Hi. lia. }
  assert (Hnil : StronglySorted lt ([] : list nat)
                 /\ Forall (fun i => (i < length result)%nat) []).
  { split; constructor. }
  unfold pred_eval, sum_targets.
  destruct result as [|x0 rest]; [discriminate|].
  destruct (_ <? 0); intros Hrep; injection Hrep as <-; simpl;
    repeat constructor; try apply H; apply Hnil.
Qed.

(** *** On small inputs *)

Lemma label_depends_on_first_piece_only_witness :
  ~ In "_"%char (list_ascii_of_string "t1")
  /\ parse_target "t1_p0_a.jpg" = parse_target "t1".
Proof.
  assert (H : ~ In "_"%char (list_ascii_of_string "t1")).
  { simpl. intros [H|[H|[]]]; discriminate H. }
  split; [exact H|].
  exact (label_depends_on_first_piece_only "t1" "p0_a.jpg" H).
Defined.

Lemma report_by_prediction_has_two_buckets_witness :
  exists rep,
    pred_eval [Demo.mk_rec 0 (-1); Demo.mk_rec 1 (-1); Demo.mk_rec 0 (-1)] = Ok rep
    /\ branch rep = ByPrediction
    /\ conf_FN rep = []
    /\ bucket_total rep = 3%nat.
Proof.
  eexists. split; [reflexivity|]. split; [reflexivity|].
  edestruct (report_by_prediction_has_two_buckets
               [Demo.mk_rec 0 (-1); Demo.mk_rec 1 (-1); Demo.mk_rec 0 (-1)])
    as (Hfn & _ & _ & _ & _ & _ & _ & Htotal & _); [reflexivity | reflexivity |].
  split; [exact Hfn | exact Htotal].
Defined.

Lemma bucket_positions_are_increasing_and_in_range_witness :
  exists rep,
    pred_eval [Demo.mk_rec 1 1; Demo.mk_rec 0 1; Demo.mk_rec 1 0; Demo.mk_rec 1 1] = Ok rep
    /\ itp rep = [0%nat; 3%nat]
    /\ StronglySorted lt (itp rep).
Proof.
  eexists. split; [reflexivity|]. split; [reflexivity|].
  pose proof (bucket_positions_are_increasing_and_in_range
                [Demo.mk_rec 1 1; Demo.mk_rec 0 1; Demo.mk_rec 1 0; Demo.mk_rec 1 1]
                _ eq_refl) as H.
  inversion H as [|? ? _ H']. inversion H' as [|? ? [Hs _] _]. exact Hs.
Defined.

End PredictionRun.

(** ** The schedule tables under Python's indexing *)

Module ScheduleIndex.

Import Train TrainFacts.

Section Facts.

Context {W batch output tensor : Type}.
Variable C : @collab W batch output tensor.


End Facts.

Section OnDemo.

Import Demo FloatLit.



End OnDemo.

End ScheduleIndex.

(** ** evaluate: the meters of a class over a run *)

Module PerClass.

Import Evaluate EvaluateFacts EvaluateRun.

Section Facts.

Context {imgs row box : Type}.
Variable C : @collab imgs row.

Implicit Types (m : gmap string (list (float * Z))).

Lemma has_class_In class_id (b : @batch imgs box) :
  has_class class_id b = true <-> In class_id (target b).
Proof.
  unfold has_class. rewrite existsb_exists. split.
  - intros (t & Ht & E). apply Z.eqb_eq in E. subst t. exact Ht.
  - intros H. exists class_id. split; [exact H | apply Z.eqb_refl].
Qed.

Lemma has_class_false class_id (b : @batch imgs box) :
  has_class class_id b = false -> ~ In class_id (target b).
Proof.
  intros E H. apply has_class_In in H. congruence.
Qed.

(** The mask of a class keeps the rows paired with a label of the class,
    all of them and in their order. *)
Lemma masked_select_combine {A} (p : Z -> bool) (tgt : list Z) : forall xs : list A,
  masked_select xs (map p tgt)
  = map fst (List.filter (fun rl => p (snd rl)) (combine xs tgt)).
Proof.
  induction tgt as [|t tgt IH]; intros [|x xs]; simpl; try reflexivity.
  destruct (p t); simpl; rewrite IH; reflexivity.
Qed.

(** What one pass of the per-class loop does to the two meters of a class
    whose name occurs once in [class_to_idx]. *)
Lemma class_loop_named (b : @batch imgs box) name class_id class_to_idx m :
  NoDup (map fst class_to_idx) ->
  In (name, class_id) class_to_idx ->
  let acc := accuracy C (class_rows C class_id b) (class_labels class_id b) in
  let n := Z.of_nat (length (class_labels class_id b)) in
  fold_left (class_update C (model C (images b)) (target b)) class_to_idx m
    !! ("acc1_" ++ name)%string
  = (if has_class class_id b
     then Some (default [] (m !! ("acc1_" ++ name)%string) ++ [(fst acc, n)])
     else m !! ("acc1_" ++ name)%string)
  /\ fold_left (class_update C (model C (images b)) (target b)) class_to_idx m
       !! ("acc5_" ++ name)%string
     = (if has_class class_id b
        then Some (default [] (m !! ("acc5_" ++ name)%string) ++ [(snd acc, n)])
        else m !! ("acc5_" ++ name)%string).
Proof.
  intros Hnd Hin acc n. subst acc n.
  destruct (in_split _ _ Hin) as (pre & post & Hsplit).
  assert (Hpre : forall c, In c pre -> fst c <> name).
  { intros c Hc Heq. rewrite Hsplit, map_app in Hnd. simpl in Hnd.
    apply NoDup_app in Hnd as (_ & Hdisj & _).
    apply (Hdisj name).
    - apply list_elem_of_In, in_map_iff. exists c. split; assumption.
    - left. }
  assert (Hpost : forall c, In c post -> fst c <> name).
  { intros c Hc Heq. rewrite Hsplit, map_app in Hnd. simpl in Hnd.
    apply NoDup_app in Hnd as (_ & _ & Hnd). apply NoDup_cons in Hnd as [Hnot _].
    apply Hnot, list_elem_of_In, in_map_iff. exists c. split; assumption. }
  rewrite Hsplit, fold_left_app. cbn [fold_left].
  set (m1 := fold_left (class_update C (model C (images b)) (target b)) pre m).
  destruct (class_loop_other_names C (model C (images b)) (target b) name post
              (class_update C (model C (images b)) (target b) m1 (name, class_id)) Hpost)
    as [-> ->].
  destruct (class_loop_other_names C (model C (images b)) (target b) name pre m Hpre)
    as [E1 E5]. fold m1 in E1, E5.
  destruct (has_class class_id b) eqn:Eh.
  - apply has_class_In in Eh.
    destruct (class_update_present C (model C (images b)) (target b) m1 name class_id Eh)
      as [H1 H5].
    cbv zeta in H1, H5. rewrite H1, H5, E1, E5. split; reflexivity.
  - apply has_class_false in Eh.
    rewrite (class_update_absent C (model C (images b)) (target b) m1 name class_id Eh).
    split; assumption.
Qed.

Lemma eval_batch_named class_to_idx (s : state) (b : @batch imgs box) name class_id :
  NoDup (map fst class_to_idx) ->
  In (name, class_id) class_to_idx ->
  let acc := accuracy C (class_rows C class_id b) (class_labels class_id b) in
  let n := Z.of_nat (length (class_labels class_id b)) in
  meters (eval_batch C class_to_idx s b) !! ("acc1_" ++ name)%string
  = (if has_class class_id b
     then Some (default [] (meters s !! ("acc1_" ++ name)%string) ++ [(fst acc, n)])
     else meters s !! ("acc1_" ++ name)%string)
  /\ meters (eval_batch C class_to_idx s b) !! ("acc5_" ++ name)%string
     = (if has_class class_id b
        then Some (default [] (meters s !! ("acc5_" ++ name)%string) ++ [(snd acc, n)])
        else meters s !! ("acc5_" ++ name)%string).
Proof.
  intros Hnd Hin acc n. subst acc n. unfold eval_batch.
  destruct (accuracy C (model C (images b)) (target b)) as [a1 a5]. cbn [meters].
  set (m0 := meter_update "acc5" a5 _ _).
  destruct (class_loop_named b name class_id class_to_idx m0 Hnd Hin) as [-> ->].
  subst m0. rewrite !meter_update_other by (simpl; discriminate).
  split; reflexivity.
Qed.

Lemma class_samples_none class_id (bs : list (@batch imgs box)) :
  existsb (has_class class_id) bs = false ->
  class_acc1_samples C class_id bs = [] /\ class_acc5_samples C class_id bs = [].
Proof.
  induction bs as [|b rest IH]; simpl; [split; reflexivity|].
  destruct (has_class class_id b) eqn:E; simpl; [discriminate|]. exact IH.
Qed.

Lemma eval_loop_named class_to_idx name class_id (bs : list (@batch imgs box)) :
  NoDup (map fst class_to_idx) ->
  In (name, class_id) class_to_idx ->
  forall s : state,
    meters (fold_left (eval_batch C class_to_idx) bs s) !! ("acc1_" ++ name)%string
    = (if existsb (has_class class_id) bs
       then Some (default [] (meters s !! ("acc1_" ++ name)%string)
                    ++ class_acc1_samples C class_id bs)
       else meters s !! ("acc1_" ++ name)%string)
    /\ meters (fold_left (eval_batch C class_to_idx) bs s) !! ("acc5_" ++ name)%string
       = (if existsb (has_class class_id) bs
          then Some (default [] (meters s !! ("acc5_" ++ name)%string)
                       ++ class_acc5_samples C class_id bs)
          else meters s !! ("acc5_" ++ name)%string).
Proof.
  intros Hnd Hin.
  induction bs as [|b rest IH]; intros s; cbn [fold_left existsb]; [split; reflexivity|].
  destruct (IH (eval_batch C class_to_idx s b)) as [-> ->].
  destruct (eval_batch_named class_to_idx s b name class_id Hnd Hin) as [-> ->].
  unfold class_acc1_samples, class_acc5_samples. cbn [flat_map].
  fold (class_acc1_samples C class_id rest). fold (class_acc5_samples C class_id rest).
  destruct (has_class class_id b) eqn:Eb; cbn [orb].
  - destruct (existsb (has_class class_id) rest) eqn:Er.
    + simpl. rewrite <- !app_assoc. split; reflexivity.
    + destruct (class_samples_none class_id rest Er) as [-> ->].
      split; reflexivity.
  - cbn [app]. split; reflexivity.
Qed.

(** C8: let (name, id) be a class of [class_to_idx], whose names are
    distinct as the keys of a dict are.  For every batch, the rows and labels
    handed to [accuracy] for the class are those of the batch's samples
    labelled [id], all of them, in their order, and nothing else.  A batch
    with such samples adds to acc1_name and acc5_name one sample each: that
    accuracy, weighted by the number of these samples, which is at least 1;
    a batch without them leaves the two meters as they were, adding no value,
    no zero either.  Over a run the two meters hold one sample for each batch
    that has the class, in loader order, and the keys are absent from the
    result when no batch has it.  With classes neg = 0 and pos = 1 and batches
    of pos samples only, acc1_neg and acc5_neg are absent while acc1_pos and
    acc5_pos hold the samples of the batches that are not empty. *)
Theorem per_class_meters_hold_the_class_samples_of_each_batch
        class_to_idx name class_id :
  NoDup (map fst class_to_idx) ->
  In (name, class_id) class_to_idx ->
  (forall b : @batch imgs box,
      class_rows C class_id b
      = map fst (List.filter (fun rl => snd rl =? class_id)
                             (combine (model C (images b)) (target b)))
      /\ class_labels class_id b = List.filter (fun t => t =? class_id) (target b)
      /\ Forall (fun t => t = class_id) (class_labels class_id b)
      /\ (forall r, In r (class_rows C class_id b) ->
                    exists j, model C (images b) !! j = Some r
                              /\ target b !! j = Some class_id)
      /\ (has_class class_id b = true <-> In class_id (target b))
      /\ (has_class class_id b = true <-> 1 <= Z.of_nat (length (class_labels class_id b))))
  /\ (forall (s : state) (b : @batch imgs box),
         let acc := accuracy C (class_rows C class_id b) (class_labels class_id b) in
         let n := Z.of_nat (length (class_labels class_id b)) in
         meters (eval_batch C class_to_idx s b) !! ("acc1_" ++ name)%string
         = (if has_class class_id b
            then Some (default [] (meters s !! ("acc1_" ++ name)%string) ++ [(fst acc, n)])
            else meters s !! ("acc1_" ++ name)%string)
         /\ meters (eval_batch C class_to_idx s b) !! ("acc5_" ++ name)%string
            = (if has_class class_id b
               then Some (default [] (meters s !! ("acc5_" ++ name)%string) ++ [(snd acc, n)])
               else meters s !! ("acc5_" ++ name)%string))
  /\ (forall bs : list (@batch imgs box),
         meters (evaluate C class_to_idx bs) !! ("acc1_" ++ name)%string
         = (if existsb (has_class class_id) bs
            then Some (class_acc1_samples C class_id bs) else None)
         /\ meters (evaluate C class_to_idx bs) !! ("acc5_" ++ name)%string
            = (if existsb (has_class class_id) bs
               then Some (class_acc5_samples C class_id bs) else None))
  /\ (forall bs : list (@batch imgs box),
         (forall b, In b bs -> Forall (fun t => t = 1) (target b)) ->
         let m := meters (evaluate C [("neg", 0); ("pos", 1)] bs) in
         m !! "acc1_neg" = None
         /\ m !! "acc5_neg" = None
         /\ m !! "acc1_pos"
            = (if existsb (fun b => negb (Nat.eqb (length (target b)) 0)) bs
               then Some (class_acc1_samples C 1 bs) else None)
         /\ m !! "acc5_pos"
            = (if existsb (fun b => negb (Nat.eqb (length (target b)) 0)) bs
               then Some (class_acc5_samples C 1 bs) else None)).
Proof.
  intros Hnd Hin.
  assert (Hrun : forall cti nm id (bs : list (@batch imgs box)),
             NoDup (map fst cti) -> In (nm, id) cti ->
             meters (evaluate C cti bs) !! ("acc1_" ++ nm)%string
             = (if existsb (has_class id) bs
                then Some (class_acc1_samples C id bs) else None)
             /\ meters (evaluate C cti bs) !! ("acc5_" ++ nm)%string
                = (if existsb (has_class id) bs
                   then Some (class_acc5_samples C id bs) else None)).
  { intros cti nm id bs Hn Hi. unfold evaluate.
    destruct (eval_loop_named cti nm id bs Hn Hi {| meters := ∅; written := []; cnt := 0 |})
      as [-> ->].
    cbn [meters]. rewrite !lookup_empty. split; reflexivity. }
  refine (conj _ (conj _ (conj _ _))).
  - intros b. unfold class_rows, class_labels.
    refine (conj _ (conj _ (conj _ (conj _ (conj _ _))))).
    + apply (masked_select_combine (fun t => t =? class_id)).
    + apply masked_select_filter.
    + rewrite masked_select_filter. rewrite Forall_forall. intros t Ht.
      apply list_elem_of_In, List.filter_In in Ht. apply Z.eqb_eq, Ht.
    + intros r Hr. destruct (masked_select_position _ _ _ Hr) as (j & H1 & H2).
      exists j. split; [exact H1 | apply class_mask_position, H2].
    + apply has_class_In.
    + split.
      * intros H. apply has_class_In in H.
        pose proof (class_count_pos (target b) class_id H). lia.
      * intros H. destruct (has_class class_id b) eqn:E; [reflexivity|].
        apply has_class_false in E.
        rewrite (class_count_zero (target b) class_id E) in H. simpl in H. lia.
  - intros s b. apply eval_batch_named; assumption.
  - intros bs. apply Hrun; assumption.
  - intros bs Hpos m. subst m.
    assert (Hnd2 : NoDup (map fst [("neg", 0); ("pos", 1)])).
    { simpl. apply NoDup_cons_2; [|apply NoDup_singleton].
      intros H. apply list_elem_of_singleton in H. discriminate H. }
    destruct (Hrun [("neg", 0); ("pos", 1)] "neg" 0 bs Hnd2 ltac:(left; reflexivity))
      as [N1 N5].
    destruct (Hrun [("neg", 0); ("pos", 1)] "pos" 1 bs Hnd2 ltac:(right; left; reflexivity))
      as [P1 P5].
    change ("acc1_" ++ "neg")%string with "acc1_neg" in N1.
    change ("acc5_" ++ "neg")%string with "acc5_neg" in N5.
    change ("acc1_" ++ "pos")%string with "acc1_pos" in P1.
    change ("acc5_" ++ "pos")%string with "acc5_pos" in P5.
    assert (Hneg : existsb (has_class 0) bs = false).
    { clear -Hpos. induction bs as [|b rest IH]; simpl; [reflexivity|].
      rewrite IH by (intros b' Hb'; apply Hpos; right; exact Hb').
      destruct (has_class 0 b) eqn:E; [|reflexivity]. exfalso.
      apply has_class_In in E. specialize (Hpos b ltac:(left; reflexivity)).
      rewrite Forall_forall in Hpos. apply list_elem_of_In, Hpos in E. discriminate E. }
    assert (Hp : existsb (has_class 1) bs
                 = existsb (fun b => negb (Nat.eqb (length (target b)) 0)) bs).
    { clear -Hpos. induction bs as [|b rest IH]; simpl; [reflexivity|].
      rewrite IH by (intros b' Hb'; apply Hpos; right; exact Hb'). f_equal.
      specialize (Hpos b ltac:(left; reflexivity)). unfold has_class.
      destruct (target b) as [|t ts]; [reflexivity|]. simpl.
      apply Forall_cons in Hpos as [-> _]. reflexivity. }
    rewrite N1, N5, P1, P5, Hneg, Hp. repeat split.
Qed.

End Facts.

Lemma per_class_meters_hold_the_class_samples_of_each_batch_witness :
  NoDup (map fst [("neg", 0); ("pos", 1)])
  /\ In ("pos", 1) [("neg", 0); ("pos", 1)]
  /\ meters (eval_batch Demo.eval_demo [("neg", 0); ("pos", 1)] Demo.empty_eval
                        Demo.pos_batch) !! "acc1_pos"
     = Some [(Demo.percent 1 2, 2)]
  /\ meters (evaluate Demo.eval_demo [("neg", 0); ("pos", 1)] [Demo.pos_batch; Demo.pos_batch])
       !! "acc1_pos"
     = Some [(Demo.percent 1 2, 2); (Demo.percent 1 2, 2)].
Proof.
  assert (Hnd : NoDup (map fst [("neg", 0); ("pos", 1)])).
  { simpl. apply NoDup_cons_2; [|apply NoDup_singleton].
    intros H. apply list_elem_of_singleton in H. discriminate H. }
  assert (Hin : In ("pos", 1) [("neg", 0); ("pos", 1)]) by (right; left; reflexivity).
  destruct (per_class_meters_hold_the_class_samples_of_each_batch
              Demo.eval_demo (box := unit) [("neg", 0); ("pos", 1)] "pos" 1 Hnd Hin)
    as (_ & Hbatch & Hrun & _).
  split; [exact Hnd|]. split; [exact Hin|]. split.
  - destruct (Hbatch Demo.empty_eval Demo.pos_batch) as [H1 _]. exact H1.
  - destruct (Hrun [Demo.pos_batch; Demo.pos_batch]) as [H1 _]. exact H1.
Defined.

End PerClass.

(** ** prediction: the label of a file name *)

Module Labels.

Import Prediction PredictionFacts PredictionRun.

(** X17: whenever a file name gets a label, the label is one of -1, 0, ...,
    9; it is the sentinel -1 exactly when the name starts with a character
    other than "t" and "_", and every such name gets it, whatever follows;
    a label from 0 to 9 is only given to a name that starts with "t" followed
    by a character other than "_". *)
Theorem label_is_minus_one_or_one_digit (name : string) :
  (forall v, parse_target name = Ok v ->
     -1 <= v <= 9
     /\ (v = -1 <-> exists c rest, name = String c rest /\ c <> "t"%char /\ c <> "_"%char)
     /\ (0 <= v -> exists d rest, name = String "t" (String d rest) /\ d <> "_"%char))
  /\ (forall c rest, name = String c rest -> c <> "t"%char -> c <> "_"%char ->
                     parse_target name = Ok (-1)).
Proof.
  split.
  - intros v H. apply label_is_sentinel_or_digit in H.
    destruct H as [(c & rest & -> & Ht & Hs & ->)|(d & rest & -> & Hd & ->)].
    + split; [lia|]. split.
      * split; [intros _; exists c, rest; auto | reflexivity].
      * intros Hv. lia.
    + split; [lia|]. split.
      * split; [lia|]. intros (c & rest' & E & Ht & _). injection E as <- _.
        contradiction.
      * intros _. exists d, rest. split; [reflexivity|]. intros ->. simpl in Hd. lia.
  - intros c rest -> Ht Hs. apply parse_target_other_initial; apply Ascii.eqb_neq; assumption.
Qed.

End Labels.
